(** * Arena server: a shallow embedding of [server.js]

    The server keeps two registries ([players], [coins]), an inbound queue of
    delayed client messages and a fixed-rate loop that drains the queue,
    moves the players, resolves player-player and player-coin collisions,
    spawns coins and broadcasts a snapshot.

    Numbers.  JavaScript numbers that hold coordinates are idealised as real
    numbers ([R]); identifiers, scores and millisecond clock readings are
    integers ([Z]); numbers read from a client message are rationals ([Q]).
    The concrete scenarios below only meet values that binary64 holds
    exactly (the one rounded product, [150 * 0.05], rounds to [7.5]), so the
    idealised and the binary64 computation agree on them step by step. *)

From Stdlib Require Import Reals Lra Lia ZArith QArith List String Bool.
Import ListNotations.

Local Open Scope Z_scope.

(** ** JavaScript values as they come out of [JSON.parse] *)

#[local] Unset Elimination Schemes.
Inductive JSValue : Type :=
| JUndefined
| JNull
| JBool (b : bool)
| JNum (q : Q)
| JStr (s : string)
| JArr (items : list JSValue)
| JObj (fields : list (string * JSValue)).
#[local] Set Elimination Schemes.

(** [!!v]: undefined, null, false, 0 and the empty string are falsy. *)
Definition truthy (v : JSValue) : bool :=
  match v with
  | JUndefined | JNull => false
  | JBool b => b
  | JNum q => negb (Qeq_bool q 0)
  | JStr s => negb (String.eqb s EmptyString)
  | JArr _ | JObj _ => true
  end.

Fixpoint lookupField (k : string) (fs : list (string * JSValue)) : JSValue :=
  match fs with
  | [] => JUndefined
  | (k', v) :: rest => if String.eqb k k' then v else lookupField k rest
  end.

(** [v.k] for the field names the server reads ([type], [up], [down], [left],
    [right], [stamp]), none of which lives on a prototype.  Reading a property
    of [null] or [undefined] throws a TypeError ([None]). *)
Definition getProp (v : JSValue) (k : string) : option JSValue :=
  match v with
  | JUndefined | JNull => None
  | JObj fs => Some (lookupField k fs)
  | JBool _ | JNum _ | JStr _ | JArr _ => Some JUndefined
  end.

(** [a || b] *)
Definition jsOr (a b : JSValue) : JSValue := if truthy a then a else b.

(** [v === "input"] *)
Definition isInputTag (v : JSValue) : bool :=
  match v with
  | JStr s => String.eqb s "input"
  | _ => false
  end.

(** ** Objects used as registries

    [players] and [coins] are plain objects keyed by integer ids.  Such keys
    are enumerated by [Object.values], [Object.keys] and [for ... in] in
    ascending numeric order, so a registry is an association list kept in
    that order. *)

Module Obj.
Section WithValue.
Context {V : Type}.

Definition t : Type := list (Z * V).

Fixpoint get (k : Z) (o : list (Z * V)) : option V :=
  match o with
  | [] => None
  | (k', v) :: rest => if k =? k' then Some v else get k rest
  end.

(** [o[k] = v]: overwrite in place, or add the key at its numeric rank. *)
Fixpoint set (k : Z) (v : V) (o : list (Z * V)) : list (Z * V) :=
  match o with
  | [] => [(k, v)]
  | (k', v') :: rest =>
      if k =? k' then (k, v) :: rest
      else if k <? k' then (k, v) :: (k', v') :: rest
      else (k', v') :: set k v rest
  end.

(** [delete o[k]] *)
Definition delete (k : Z) (o : list (Z * V)) : list (Z * V) :=
  filter (fun kv => negb (fst kv =? k)) o.

Definition values (o : list (Z * V)) : list V := map snd o.
Definition keys (o : list (Z * V)) : list Z := map fst o.

End WithValue.
Arguments t : clear implicits.
End Obj.

(** ** Constants *)

Local Open Scope R_scope.

Definition MAP_W : R := 800.
Definition MAP_H : R := 600.
Definition PLAYER_SPEED : R := 150.
Definition PLAYER_R : R := 16.
Definition COIN_R : R := 10.
Definition MAX_COINS : nat := 20.
Definition PHYS_DT : R := 5 / 100.
Definition COIN_SPAWN_INTERVAL : Z := 3000.
Definition SIM_LATENCY_MS : Z := 200.

(** ** World data *)

(** A player's input intent.  The fields hold JavaScript values: the loop
    only ever tests them for truthiness. *)
Module Input.
Record t : Type := mk {
  up : JSValue;
  down : JSValue;
  left : JSValue;
  right : JSValue;
  stamp : JSValue
}.

(** The intent a player is created with: four [false] and no [stamp]. *)
Definition initial : t :=
  mk (JBool false) (JBool false) (JBool false) (JBool false) JUndefined.
End Input.

Module Player.
Record t : Type := mk {
  id : Z;
  x : R;
  y : R;
  score : Z;
  input : Input.t;
  inputSpeedLoss : option R   (* [None]: the field was never written *)
}.

Definition setPos (p : t) (nx ny : R) : t :=
  mk (id p) nx ny (score p) (input p) (inputSpeedLoss p).

Definition setScore (p : t) (s : Z) : t :=
  mk (id p) (x p) (y p) s (input p) (inputSpeedLoss p).

Definition setInput (p : t) (i : Input.t) : t :=
  mk (id p) (x p) (y p) (score p) i (inputSpeedLoss p).
End Player.

Module Coin.
Record t : Type := mk {
  id : Z;
  x : R;
  y : R
}.
End Coin.

(** ** Physics: movement *)

(** One axis of the direction vector: [v = 0; if (neg) v -= 1; if (pos) v += 1]. *)
Definition axis (neg pos : JSValue) : Z :=
  let v := 0%Z in
  let v := if truthy neg then (v - 1)%Z else v in
  let v := if truthy pos then (v + 1)%Z else v in
  v.

(** [p.inputSpeedLoss || 1] *)
Definition speedFactor (p : Player.t) : R :=
  match Player.inputSpeedLoss p with
  | None => 1
  | Some l => if Req_dec_T l 0 then 1 else l
  end.

(** [Math.max(lo, Math.min(hi, v))] *)
Definition clamp (lo hi v : R) : R := Rmax lo (Rmin hi v).

(** The body of the [forEach] over the players: integrate the stored intent
    over the fixed step, then clamp.  [p.input] is always an object, so
    [p.input || {}] is [p.input]. *)
Definition movePlayer (p : Player.t) : Player.t :=
  let inp := Player.input p in
  let vx := axis (Input.left inp) (Input.right inp) in
  let vy := axis (Input.up inp) (Input.down inp) in
  let moved :=
    if negb (vx =? 0)%Z || negb (vy =? 0)%Z then
      let len := sqrt (IZR (vx * vx + vy * vy)) in
      let ux := IZR vx / len in
      let uy := IZR vy / len in
      let f := speedFactor p in
      Player.mk (Player.id p)
                (Player.x p + ux * PLAYER_SPEED * PHYS_DT * f)
                (Player.y p + uy * PLAYER_SPEED * PHYS_DT * f)
                (Player.score p) (Player.input p) (Some 1)
    else p in
  Player.setPos moved
    (clamp PLAYER_R (MAP_W - PLAYER_R) (Player.x moved))
    (clamp PLAYER_R (MAP_H - PLAYER_R) (Player.y moved)).

Definition movePlayers (ps : Obj.t Player.t) : Obj.t Player.t :=
  map (fun kv => (fst kv, movePlayer (snd kv))) ps.

(** ** Physics: player against player *)

(** [p2.score / (p1.score + p2.score + 1)] *)
Definition dominanceRatio (s1 s2 : Z) : R := IZR s2 / IZR (s1 + s2 + 1).

Definition distance (p1 p2 : Player.t) : R :=
  let dx := Player.x p2 - Player.x p1 in
  let dy := Player.y p2 - Player.y p1 in
  sqrt (dx * dx + dy * dy).

(** The body of the inner loop for the pair [(p1, p2)]. *)
Definition resolvePair (p1 p2 : Player.t) : Player.t * Player.t :=
  let dx := Player.x p2 - Player.x p1 in
  let dy := Player.y p2 - Player.y p1 in
  let dist := sqrt (dx * dx + dy * dy) in
  let minDist := 2 * PLAYER_R in
  if Rlt_dec dist minDist then
    if Rlt_dec 0 dist then
      let overlap := minDist - dist in
      let nx := dx / dist in
      let ny := dy / dist in
      let ratio := dominanceRatio (Player.score p1) (Player.score p2) in
      (Player.mk (Player.id p1)
                 (Player.x p1 - nx * overlap * (1 - ratio))
                 (Player.y p1 - ny * overlap * (1 - ratio))
                 (Player.score p1) (Player.input p1) (Some (8 / 10)),
       Player.mk (Player.id p2)
                 (Player.x p2 + nx * overlap * ratio)
                 (Player.y p2 + ny * overlap * ratio)
                 (Player.score p2) (Player.input p2) (Some (8 / 10)))
    else (p1, p2)
  else (p1, p2).

(** [arr[i] = a] for an index inside the array. *)
Fixpoint setNth {A : Type} (i : nat) (a : A) (l : list A) : list A :=
  match l, i with
  | [], _ => []
  | _ :: rest, O => a :: rest
  | b :: rest, S i' => b :: setNth i' a rest
  end.

(** One iteration of the inner loop: the two array slots alias the player
    objects, so the pair is read, resolved and written back. *)
Definition collideAt (arr : list Player.t) (i j : nat) : list Player.t :=
  match nth_error arr i, nth_error arr j with
  | Some p1, Some p2 =>
      let (q1, q2) := resolvePair p1 p2 in
      setNth j q2 (setNth i q1 arr)
  | _, _ => arr
  end.

(** [for (i = 0; i < n; i++) for (j = i+1; j < n; j++)] *)
Definition collidePlayerArr (arr : list Player.t) : list Player.t :=
  let n := List.length arr in
  fold_left
    (fun a i => fold_left (fun a' j => collideAt a' i j) (seq (S i) (n - S i)) a)
    (seq 0 n) arr.

(** The array holds the registry's own player objects, so what the loops
    write is what the registry holds afterwards, key by key. *)
Definition collidePlayers (ps : Obj.t Player.t) : Obj.t Player.t :=
  combine (Obj.keys ps) (collidePlayerArr (Obj.values ps)).

(** ** Physics: player against coin *)

Definition touches (p : Player.t) (c : Coin.t) : bool :=
  let dx := Player.x p - Coin.x c in
  let dy := Player.y p - Coin.y c in
  if Rle_dec (dx * dx + dy * dy) ((PLAYER_R + COIN_R) * (PLAYER_R + COIN_R))
  then true else false.

(** The inner [for (cid in coins)] for one player: a coin that is touched is
    scored and deleted on the spot, the others stay. *)
Fixpoint collectCoins (p : Player.t) (cs : Obj.t Coin.t)
  : Player.t * Obj.t Coin.t :=
  match cs with
  | [] => (p, [])
  | (k, c) :: rest =>
      if touches p c then
        collectCoins (Player.setScore p (Player.score p + 1)%Z) rest
      else
        let (p', rest') := collectCoins p rest in
        (p', (k, c) :: rest')
  end.

(** The outer [for (pid in players)]. *)
Fixpoint coinPhase (ps : Obj.t Player.t) (cs : Obj.t Coin.t)
  : Obj.t Player.t * Obj.t Coin.t :=
  match ps with
  | [] => ([], cs)
  | (k, p) :: rest =>
      let (p', cs') := collectCoins p cs in
      let (rest', cs'') := coinPhase rest cs' in
      ((k, p') :: rest', cs'')
  end.

(** ** Coin spawner *)

(** [spawnCoin()]: [rx] and [ry] are the two [Math.random()] draws. *)
Definition spawnCoin (rx ry : R) (nextCoinId : Z) (cs : Obj.t Coin.t)
  : Z * Obj.t Coin.t :=
  let id := nextCoinId in
  ((nextCoinId + 1)%Z,
   Obj.set id (Coin.mk id (rx * (MAP_W - 40) + 20) (ry * (MAP_H - 40) + 20)) cs).

(** The spawn block of the loop.  [tCheck] and [tReset] are the two
    [Date.now()] readings; the state is [(coins, nextCoinId, lastSpawn)]. *)
Definition spawnStep (tCheck tReset : Z) (rx ry : R)
    (st : Obj.t Coin.t * Z * Z) : Obj.t Coin.t * Z * Z :=
  let '(cs, nextCoinId, lastSpawn) := st in
  if (COIN_SPAWN_INTERVAL <? tCheck - lastSpawn)%Z then
    if (List.length (Obj.keys cs) <? MAX_COINS)%nat then
      let (next', cs') := spawnCoin rx ry nextCoinId cs in
      (cs', next', tReset)
    else (cs, nextCoinId, tReset)
  else (cs, nextCoinId, lastSpawn).

(** ** Connections and delayed messages *)

Inductive ReadyState : Type := CONNECTING | OPEN | CLOSING | CLOSED.

Definition isOpen (r : ReadyState) : bool :=
  match r with OPEN => true | _ => false end.

(** A socket object: its identity and the [playerId] field the connection
    handler writes on it ([None] while the field is undefined). *)
Module WS.
Record t : Type := mk {
  handle : nat;
  playerId : option Z
}.
End WS.

Module Envelope.
Record t : Type := mk {
  processAt : Z;
  ws : WS.t;
  raw : string
}.
End Envelope.

Definition queueInbound (now : Z) (ws : WS.t) (raw : string)
    (inboundQueue : list Envelope.t) : list Envelope.t :=
  inboundQueue ++ [Envelope.mk (now + SIM_LATENCY_MS)%Z ws raw].

(** Completion of a call that may throw. *)
Inductive Outcome (A : Type) : Type :=
| Returned (a : A)
| Thrown.
Arguments Returned {A} a.
Arguments Thrown {A}.

Definition bind {A B : Type} (m : Outcome A) (k : A -> Outcome B) : Outcome B :=
  match m with
  | Returned a => k a
  | Thrown => Thrown
  end.

Notation "x <- m ;; k" := (bind m (fun x => k))
  (at level 61, m at next level, right associativity).

Definition readProp (v : JSValue) (k : string) : Outcome JSValue :=
  match getProp v k with
  | Some r => Returned r
  | None => Thrown
  end.

(** [handleMsg(ws, msg)], run at clock reading [now].  The only write is the
    last statement, so a throw leaves the registry as it was. *)
Definition handleMsg (now : Z) (ws : WS.t) (msg : JSValue)
    (players : Obj.t Player.t) : Outcome (Obj.t Player.t) :=
  match WS.playerId ws with
  | None => Returned players
  | Some pid =>
      if (pid =? 0)%Z then Returned players
      else
        match Obj.get pid players with
        | None => Returned players
        | Some player =>
            ty <- readProp msg "type" ;;
            if isInputTag ty then
              u <- readProp msg "up" ;;
              d <- readProp msg "down" ;;
              l <- readProp msg "left" ;;
              r <- readProp msg "right" ;;
              s <- readProp msg "stamp" ;;
              let inp :=
                Input.mk (JBool (truthy u)) (JBool (truthy d))
                         (JBool (truthy l)) (JBool (truthy r))
                         (jsOr s (JNum (inject_Z now))) in
              Returned (Obj.set pid (Player.setInput player inp) players)
            else Returned players
        end
  end.

(** [arr.splice(i, 1)] *)
Definition splice1 {A : Type} (i : nat) (l : list A) : list A :=
  firstn i l ++ skipn (S i) l.

Section Codec.

(** The JSON codec is the runtime's: [JSON_parse] yields [None] where
    [JSON.parse] throws. *)
Variable JSON_parse : string -> option JSValue.

(** The [try { ... } catch (e) { }] around one envelope. *)
Definition processEnvelope (tHandle : Z) (e : Envelope.t)
    (players : Obj.t Player.t) : Obj.t Player.t :=
  let attempt :=
    msg <- match JSON_parse (Envelope.raw e) with
           | Some v => Returned v
           | None => Thrown
           end ;;
    handleMsg tHandle (Envelope.ws e) msg players in
  match attempt with
  | Returned players' => players'
  | Thrown => players
  end.

(** The [for (let i = 0; i < inboundQueue.length; )] loop.  [iter] counts the
    iterations done so far and [clock iter] is what [Date.now()] reads if the
    handler asks during that iteration. *)
Fixpoint drainLoop (fuel : nat) (now : Z) (clock : nat -> Z) (iter i : nat)
    (players : Obj.t Player.t) (q : list Envelope.t)
  : Obj.t Player.t * list Envelope.t :=
  match fuel with
  | O => (players, q)
  | S fuel' =>
      match nth_error q i with
      | None => (players, q)
      | Some e =>
          if (Envelope.processAt e <=? now)%Z then
            drainLoop fuel' now clock (S iter) i
                      (processEnvelope (clock iter) e players) (splice1 i q)
          else
            drainLoop fuel' now clock (S iter) (S i) players q
      end
  end.

(** Every iteration retires one envelope (handled, or stepped over), so the
    queue length bounds the number of iterations. *)
Definition processInboundQueue (now : Z) (clock : nat -> Z)
    (players : Obj.t Player.t) (q : list Envelope.t)
  : Obj.t Player.t * list Envelope.t :=
  drainLoop (List.length q) now clock 0 0 players q.

End Codec.

(** ** Outbound side *)

Module PlayerView.
Record t : Type := mk { id : Z; x : R; y : R; score : Z }.
End PlayerView.

Module CoinView.
Record t : Type := mk { id : Z; x : R; y : R }.
End CoinView.

(** The snapshot object before serialisation. *)
Module Snapshot.
Record t : Type := mk {
  time : Z;
  players : list PlayerView.t;
  coins : list CoinView.t
}.
End Snapshot.

Module Welcome.
Record t : Type := mk { id : Z; mapW : R; mapH : R; time : Z }.
End Welcome.

(** What the server hands to [JSON.stringify]. *)
Inductive OutMsg : Type :=
| WelcomeMsg (w : Welcome.t)
| SnapshotMsg (s : Snapshot.t).

(** A pending [setTimeout] of [sendWithLatency]: the callback closes over the
    socket and the message, and the runtime does not run it before [due]. *)
Module Timer.
Record t : Type := mk {
  due : Z;
  target : WS.t;
  payload : string
}.
End Timer.

(** [sendWithLatency(ws, msg)] called at time [now]. *)
Definition sendWithLatency (now : Z) (ws : WS.t) (msg : string)
    (timers : list Timer.t) : list Timer.t :=
  timers ++ [Timer.mk (now + SIM_LATENCY_MS)%Z ws msg].

Definition snapshotOf (now : Z) (players : Obj.t Player.t)
    (coins : Obj.t Coin.t) : Snapshot.t :=
  Snapshot.mk now
    (map (fun p => PlayerView.mk (Player.id p) (Player.x p) (Player.y p)
                                 (Player.score p))
         (Obj.values players))
    (map (fun c => CoinView.mk (Coin.id c) (Coin.x c) (Coin.y c))
         (Obj.values coins)).

(** The callback of a timer, run while the socket is in state [r]: what it
    hands to [ws.send]. *)
Definition timerCallback (r : ReadyState) (tm : Timer.t) : list (WS.t * string) :=
  if isOpen r then [(Timer.target tm, Timer.payload tm)] else [].

(** The runtime's timer phase at time [t]: the callbacks of the timers that
    are due run in the order they were armed, the others stay pending.
    [readyState] gives each socket's state at that time. *)
Fixpoint runTimers (t : Z) (readyState : WS.t -> ReadyState)
    (timers : list Timer.t) : list (WS.t * string) * list Timer.t :=
  match timers with
  | [] => ([], [])
  | tm :: rest =>
      let (sent, pending) := runTimers t readyState rest in
      if (Timer.due tm <=? t)%Z then
        (timerCallback (readyState (Timer.target tm)) tm ++ sent, pending)
      else (sent, tm :: pending)
  end.

Section Broadcast.

Variable JSON_stringify : OutMsg -> string.

(** [broadcastState()] at time [now]; [clients] is [wss.clients]. *)
Definition broadcastState (now : Z) (players : Obj.t Player.t)
    (coins : Obj.t Coin.t) (clients : list WS.t) (timers : list Timer.t)
  : list Timer.t :=
  let s := JSON_stringify (SnapshotMsg (snapshotOf now players coins)) in
  fold_left (fun tms ws => sendWithLatency now ws s tms) clients timers.

End Broadcast.

(** ** The loop *)

Module World.
Record t : Type := mk {
  nextPlayerId : Z;
  players : Obj.t Player.t;
  coins : Obj.t Coin.t;
  nextCoinId : Z;
  inboundQueue : list Envelope.t;
  lastSpawn : Z;
  timers : list Timer.t
}.
End World.

(** What one firing of the loop takes from outside: its clock readings, the
    two random draws of a spawn, and the connected sockets. *)
Module Tick.
Record env : Type := mkEnv {
  tDrain : Z;
  tHandle : nat -> Z;
  tSpawnCheck : Z;
  tSpawnReset : Z;
  tBroadcast : Z;
  randX : R;
  randY : R;
  clients : list WS.t
}.
End Tick.

Section Loop.

Variable JSON_parse : string -> option JSValue.
Variable JSON_stringify : OutMsg -> string.

(** The state of the registries once the physics of a firing is done, before
    the spawn block. *)
Definition physics (ps : Obj.t Player.t) (cs : Obj.t Coin.t)
  : Obj.t Player.t * Obj.t Coin.t :=
  coinPhase (collidePlayers (movePlayers ps)) cs.

(** The callback of [setInterval]. *)
Definition tick (e : Tick.env) (w : World.t) : World.t :=
  let (ps1, q1) :=
    processInboundQueue JSON_parse (Tick.tDrain e) (Tick.tHandle e)
                        (World.players w) (World.inboundQueue w) in
  let (ps2, cs2) := physics ps1 (World.coins w) in
  let '(cs3, next3, last3) :=
    spawnStep (Tick.tSpawnCheck e) (Tick.tSpawnReset e)
              (Tick.randX e) (Tick.randY e)
              (cs2, World.nextCoinId w, World.lastSpawn w) in
  World.mk (World.nextPlayerId w) ps2 cs3 next3 q1 last3
    (broadcastState JSON_stringify (Tick.tBroadcast e) ps2 cs3
                    (Tick.clients e) (World.timers w)).

(** The ['connection'] handler for a socket with identity [h].  [rx], [ry]
    are the two random draws, [tWelcome] and [tBroadcast] the two clock
    readings, [clients] is [wss.clients], the new socket included.  The
    result carries the socket with its [playerId] written. *)
Definition onConnection (h : nat) (rx ry : R) (tWelcome tBroadcast : Z)
    (clients : list WS.t) (w : World.t) : WS.t * World.t :=
  let id := World.nextPlayerId w in
  let ws := WS.mk h (Some id) in
  let ps :=
    Obj.set id
      (Player.mk id (rx * (MAP_W - 100) + 50) (ry * (MAP_H - 100) + 50)
                 0 Input.initial None)
      (World.players w) in
  let welcome := WelcomeMsg (Welcome.mk id MAP_W MAP_H tWelcome) in
  let tms := sendWithLatency tWelcome ws (JSON_stringify welcome) (World.timers w) in
  (ws,
   World.mk (id + 1)%Z ps (World.coins w) (World.nextCoinId w)
     (World.inboundQueue w) (World.lastSpawn w)
     (broadcastState JSON_stringify tBroadcast ps (World.coins w) clients tms)).

(** The ['message'] handler. *)
Definition onMessage (now : Z) (ws : WS.t) (raw : string) (w : World.t) : World.t :=
  World.mk (World.nextPlayerId w) (World.players w) (World.coins w)
    (World.nextCoinId w) (queueInbound now ws raw (World.inboundQueue w))
    (World.lastSpawn w) (World.timers w).

(** The ['close'] handler; [clients] is [wss.clients], the closed socket
    already removed. *)
Definition onClose (now : Z) (ws : WS.t) (clients : list WS.t) (w : World.t)
  : World.t :=
  let ps :=
    match WS.playerId ws with
    | Some pid => Obj.delete pid (World.players w)
    | None => World.players w
    end in
  World.mk (World.nextPlayerId w) ps (World.coins w) (World.nextCoinId w)
    (World.inboundQueue w) (World.lastSpawn w)
    (broadcastState JSON_stringify now ps (World.coins w) clients (World.timers w)).

End Loop.

(** ** Vocabulary of the statements *)

(** A player stands on the map, a radius away from every edge. *)
Definition inBounds (p : Player.t) : Prop :=
  PLAYER_R <= Player.x p <= MAP_W - PLAYER_R /\
  PLAYER_R <= Player.y p <= MAP_H - PLAYER_R.

(** The test of [if (vx !== 0 || vy !== 0)] for a player's stored intent. *)
Definition moving (p : Player.t) : bool :=
  let inp := Player.input p in
  negb (axis (Input.left inp) (Input.right inp) =? 0)%Z
  || negb (axis (Input.up inp) (Input.down inp) =? 0)%Z.

(** Where the integration puts a moving player, before the clamp. *)
Definition advanced (p : Player.t) : R * R :=
  let inp := Player.input p in
  let vx := axis (Input.left inp) (Input.right inp) in
  let vy := axis (Input.up inp) (Input.down inp) in
  let len := sqrt (IZR (vx * vx + vy * vy)) in
  (Player.x p + IZR vx / len * PLAYER_SPEED * PHYS_DT * speedFactor p,
   Player.y p + IZR vy / len * PLAYER_SPEED * PHYS_DT * speedFactor p).

(** ** Scenarios *)

Definition pressLeft : Input.t :=
  Input.mk (JBool false) (JBool false) (JBool true) (JBool false)
           (JNum (inject_Z 1000)).

(** A player resting against the left wall and one walking towards it. *)
Definition atWall : Player.t := Player.mk 1 16 100 0 Input.initial None.
Definition walker : Player.t := Player.mk 2 55 100 0 pressLeft None.

(** Two idle, overlapping players, eight pixels apart. *)
Definition playerA (s : Z) : Player.t := Player.mk 1 100 100 s Input.initial None.
Definition playerB (s : Z) : Player.t := Player.mk 2 108 100 s Input.initial None.

(** An idle player that carries the penalty of an earlier collision. *)
Definition bumped : Player.t :=
  Player.mk 1 100 100 0 Input.initial (Some (8 / 10)).

Definition noParse : string -> option JSValue := fun _ => None.
Definition noText : OutMsg -> string := fun _ => EmptyString.

Definition quietEnv : Tick.env :=
  Tick.mkEnv 1000 (fun _ => 1000%Z) 1000 1000 1000 (1 / 2) (1 / 2) [].

Definition wallWorld : World.t :=
  World.mk 3 [(1%Z, atWall); (2%Z, walker)] [] 1 [] 1000 [].

Definition bumpedWorld : World.t :=
  World.mk 2 [(1%Z, bumped)] [] 1 [] 1000 [].

(** ** Vocabulary for the inbound queue *)

(** An envelope is ready for a drain that reads the clock at [now]. *)
Definition ready (now : Z) (e : Envelope.t) : bool :=
  (Envelope.processAt e <=? now)%Z.

Definition waiting (now : Z) (e : Envelope.t) : bool := negb (ready now e).

(** The socket carries the id of a player that is in the registry. *)
Definition knownPlayer (players : Obj.t Player.t) (ws : WS.t) : bool :=
  match WS.playerId ws with
  | None => false
  | Some pid =>
      negb (pid =? 0)%Z
      && match Obj.get pid players with Some _ => true | None => false end
  end.

Section DrainSpec.

Variable JSON_parse : string -> option JSValue.

(** The drain as the specification words it: walk the queue in arrival
    order and hand over every envelope that is ready; the [k]-th envelope of
    the queue is looked at in the [k]-th iteration. *)
Fixpoint applyReady (now : Z) (clock : nat -> Z) (iter : nat)
    (q : list Envelope.t) (players : Obj.t Player.t) : Obj.t Player.t :=
  match q with
  | [] => players
  | e :: rest =>
      applyReady now clock (S iter) rest
        (if ready now e then processEnvelope JSON_parse (clock iter) e players
         else players)
  end.

(** An envelope that the drain throws away: its payload does not parse, or
    its socket has no player in the registry. *)
Definition discarded (players : Obj.t Player.t) (e : Envelope.t) : Prop :=
  JSON_parse (Envelope.raw e) = None \/
  knownPlayer players (Envelope.ws e) = false.

End DrainSpec.

(** ** Vocabulary for the coin scan *)

(** The position, in scan order, of the first player that touches a coin. *)
Fixpoint firstToucher (ps : Obj.t Player.t) (c : Coin.t) : option nat :=
  match ps with
  | [] => None
  | (_, p) :: rest =>
      if touches p c then Some O else option_map S (firstToucher rest c)
  end.

Definition claimedBy (ps : Obj.t Player.t) (i : nat) (kc : Z * Coin.t) : bool :=
  match firstToucher ps (snd kc) with
  | Some j => Nat.eqb j i
  | None => false
  end.

Definition unclaimed (ps : Obj.t Player.t) (kc : Z * Coin.t) : bool :=
  match firstToucher ps (snd kc) with
  | Some _ => false
  | None => true
  end.

Definition totalScore (ps : Obj.t Player.t) : Z :=
  fold_right (fun kp acc => (Player.score (snd kp) + acc)%Z) 0%Z ps.

(** ** More scenarios *)

(** A decoder that knows one text. *)
Definition tinyParse (raw : string) : option JSValue :=
  if String.eqb raw "{}" then Some (JObj []) else None.

Definition socket1 : WS.t := WS.mk 1 (Some 1%Z).
Definition strangerSocket : WS.t := WS.mk 7 (Some 7%Z).

Definition garbled : Envelope.t := Envelope.mk 900 socket1 "oops".

Definition inputMsg : list (string * JSValue) :=
  [("type", JStr "input"); ("left", JNum 1); ("stamp", JNum 0)]%string.

(** ** Vocabulary for the registries and the phases *)

(** Keys in strictly ascending order: the order in which the runtime
    enumerates integer keys. *)
Fixpoint ascending (ks : list Z) : Prop :=
  match ks with
  | [] => True
  | k :: rest => Forall (fun k' => (k < k')%Z) rest /\ ascending rest
  end.

(** Every key was handed out by a counter that now stands at [next]. *)
Definition idsBelow (next : Z) (ks : list Z) : Prop :=
  Forall (fun k => (k < next)%Z) ks.

(** What the player-player pass and the movement leave alone. *)
Definition core (p : Player.t) : Z * Z * Input.t :=
  (Player.id p, Player.score p, Player.input p).

(** What a client message leaves alone. *)
Definition body (p : Player.t) : Z * R * R * Z * option R :=
  (Player.id p, Player.x p, Player.y p, Player.score p, Player.inputSpeedLoss p).

(** What the coin scan leaves alone. *)
Definition unscored (p : Player.t) : Z * R * R * Input.t * option R :=
  (Player.id p, Player.x p, Player.y p, Player.input p, Player.inputSpeedLoss p).

(** No two players of the array overlap (a player is at distance 0 from
    itself, which the resolution skips as well). *)
Definition noOverlap (arr : list Player.t) : Prop :=
  forall i j p1 p2,
    nth_error arr i = Some p1 -> nth_error arr j = Some p2 ->
    ~ (0 < distance p1 p2 < 2 * PLAYER_R).

(** The registries as the handlers keep them: ids come from the two
    counters, are stored under their own key, in ascending order; scores are
    not negative; the coins respect the cap. *)
Definition wellFormed (w : World.t) : Prop :=
  (0 < World.nextPlayerId w)%Z /\
  ascending (Obj.keys (World.players w)) /\
  Forall (fun k => (0 < k)%Z) (Obj.keys (World.players w)) /\
  idsBelow (World.nextPlayerId w) (Obj.keys (World.players w)) /\
  map Player.id (Obj.values (World.players w)) = Obj.keys (World.players w) /\
  Forall (fun p => (0 <= Player.score p)%Z) (Obj.values (World.players w)) /\
  ascending (Obj.keys (World.coins w)) /\
  idsBelow (World.nextCoinId w) (Obj.keys (World.coins w)) /\
  map Coin.id (Obj.values (World.coins w)) = Obj.keys (World.coins w) /\
  (List.length (World.coins w) <= MAX_COINS)%nat.

(** The state the script starts from: both counters at 1, nothing
    registered, nothing queued; [t0] is the clock reading stored in
    [lastSpawn]. *)
Definition startWorld (t0 : Z) : World.t := World.mk 1 [] [] 1 [] t0 [].

(** ** Scenarios for the phases *)

(** An idle player a hundred pixels to the right of [bumped]. *)
Definition bystander : Player.t := Player.mk 2 200 100 0 Input.initial None.

(** A second player standing exactly where [bumped] stands. *)
Definition shadow : Player.t := Player.mk 2 100 100 5 Input.initial None.

Definition coinAt (k : Z) (px py : R) : Z * Coin.t := (k, Coin.mk k px py).

Definition oneCoinWorld : World.t :=
  World.mk 2 [(1%Z, bumped)] [coinAt 1 105 100] 2 [] 1000 [].

(** The intent [handleMsg] builds from the fields of an [input] message
    when the clock reads [now]. *)
Definition inputOf (now : Z) (fs : list (string * JSValue)) : Input.t :=
  Input.mk (JBool (truthy (lookupField "up" fs)))
           (JBool (truthy (lookupField "down" fs)))
           (JBool (truthy (lookupField "left" fs)))
           (JBool (truthy (lookupField "right" fs)))
           (jsOr (lookupField "stamp" fs) (JNum (inject_Z now))).

(** A parsed payload that is an object tagged ["input"]. *)
Definition isInputMessage (msg : JSValue) : bool :=
  match msg with
  | JObj fs => isInputTag (lookupField "type" fs)
  | _ => false
  end.

Definition pressRightMsg : list (string * JSValue) :=
  [("type", JStr "input"); ("right", JBool true)]%string.

Definition chatMsg : JSValue :=
  JObj [("type", JStr "chat"); ("left", JBool true)]%string.

(** * Properties *)

(** ** Movement keeps the players on the map *)

Lemma clamp_bounds (lo hi v : R) : lo <= hi -> lo <= clamp lo hi v <= hi.
Proof.
  intros Hle. unfold clamp, Rmax, Rmin.
  destruct (Rle_dec hi v); destruct (Rle_dec lo _); lra.
Qed.

Lemma clamp_inside (lo hi v : R) : lo <= v <= hi -> clamp lo hi v = v.
Proof.
  intros [Hlo Hhi]. unfold clamp, Rmax, Rmin.
  destruct (Rle_dec hi v); destruct (Rle_dec lo _); lra.
Qed.

Lemma movePlayer_inBounds (p : Player.t) : inBounds (movePlayer p).
Proof.
  unfold inBounds, movePlayer. cbn [Player.setPos Player.x Player.y].
  split; apply clamp_bounds; unfold MAP_W, MAP_H, PLAYER_R; lra.
Qed.

Lemma movePlayers_inBounds (ps : Obj.t Player.t) :
  Forall inBounds (Obj.values (movePlayers ps)).
Proof.
  unfold Obj.values, movePlayers. rewrite map_map. cbn [snd].
  apply Forall_forall. intros q Hq. apply in_map_iff in Hq.
  destruct Hq as [kv [<- _]]. apply movePlayer_inBounds.
Qed.

(** What [movePlayer] does, split on whether the intent has a direction. *)
Lemma movePlayer_cases (p : Player.t) :
  movePlayer p =
    if moving p then
      Player.mk (Player.id p)
                (clamp PLAYER_R (MAP_W - PLAYER_R) (fst (advanced p)))
                (clamp PLAYER_R (MAP_H - PLAYER_R) (snd (advanced p)))
                (Player.score p) (Player.input p) (Some 1)
    else
      Player.mk (Player.id p)
                (clamp PLAYER_R (MAP_W - PLAYER_R) (Player.x p))
                (clamp PLAYER_R (MAP_H - PLAYER_R) (Player.y p))
                (Player.score p) (Player.input p) (Player.inputSpeedLoss p).
Proof.
  unfold movePlayer, moving, advanced.
  destruct (negb _ || negb _); reflexivity.
Qed.

Lemma movePlayer_idle (p : Player.t) :
  moving p = false -> inBounds p -> movePlayer p = p.
Proof.
  intros Hm [Hx Hy]. rewrite movePlayer_cases, Hm.
  rewrite !clamp_inside by assumption. destruct p; reflexivity.
Qed.

(** ** Geometry of one resolution *)

Lemma sqrt_sq_pos (d : R) : 0 <= d -> sqrt (d * d) = d.
Proof. intros Hd. apply sqrt_square; exact Hd. Qed.

Lemma unit_normal (dx dy : R) :
  let d := sqrt (dx * dx + dy * dy) in
  0 < d -> (dx / d) * (dx / d) + (dy / d) * (dy / d) = 1.
Proof.
  intros d Hd.
  assert (Hsq : d * d = dx * dx + dy * dy).
  { unfold d. apply sqrt_sqrt. nra. }
  field_simplify_eq; [ nra | lra ].
Qed.

Lemma sqrt_scaled (nx ny k : R) :
  nx * nx + ny * ny = 1 -> 0 <= k ->
  sqrt ((nx * k) * (nx * k) + (ny * k) * (ny * k)) = k.
Proof.
  intros Hn Hk.
  replace ((nx * k) * (nx * k) + (ny * k) * (ny * k)) with (k * k) by nra.
  apply sqrt_sq_pos; exact Hk.
Qed.

Lemma resolvePair_overlapping (p1 p2 : Player.t) :
  0 < distance p1 p2 < 2 * PLAYER_R ->
  resolvePair p1 p2 =
    (let d := distance p1 p2 in
     let nx := (Player.x p2 - Player.x p1) / d in
     let ny := (Player.y p2 - Player.y p1) / d in
     let overlap := 2 * PLAYER_R - d in
     let ratio := dominanceRatio (Player.score p1) (Player.score p2) in
     (Player.mk (Player.id p1)
                (Player.x p1 - nx * overlap * (1 - ratio))
                (Player.y p1 - ny * overlap * (1 - ratio))
                (Player.score p1) (Player.input p1) (Some (8 / 10)),
      Player.mk (Player.id p2)
                (Player.x p2 + nx * overlap * ratio)
                (Player.y p2 + ny * overlap * ratio)
                (Player.score p2) (Player.input p2) (Some (8 / 10)))).
Proof.
  intros [Hpos Hlt]. unfold resolvePair, distance in *.
  destruct (Rlt_dec _ _) as [_ | Hn]; [ | contradiction ].
  destruct (Rlt_dec _ _) as [_ | Hn]; [ | contradiction ].
  reflexivity.
Qed.

Lemma resolvePair_apart (p1 p2 : Player.t) :
  ~ (0 < distance p1 p2 < 2 * PLAYER_R) -> resolvePair p1 p2 = (p1, p2).
Proof.
  intros Hn. unfold resolvePair, distance in *.
  destruct (Rlt_dec _ _); [ destruct (Rlt_dec _ _) | ]; try reflexivity.
  exfalso. apply Hn. split; assumption.
Qed.

Lemma dominanceRatio_range (s1 s2 : Z) :
  (0 <= s1)%Z -> (0 <= s2)%Z ->
  0 <= dominanceRatio s1 s2 < 1.
Proof.
  intros H1 H2. unfold dominanceRatio.
  assert (Ht : 0 < IZR (s1 + s2 + 1)) by (apply IZR_lt; lia).
  assert (Hs : 0 <= IZR s2) by (apply IZR_le; lia).
  assert (Hlt : IZR s2 < IZR (s1 + s2 + 1)) by (apply IZR_lt; lia).
  split.
  - apply Rmult_le_pos; [ exact Hs | left; apply Rinv_0_lt_compat; exact Ht ].
  - apply Rmult_lt_reg_r with (IZR (s1 + s2 + 1)); [ exact Ht | ].
    unfold Rdiv. rewrite Rmult_assoc, Rinv_l by lra. lra.
Qed.

(** How far each player of an overlapping pair is moved, and where they end
    up relative to each other. *)
Lemma resolvePair_displacement (p1 p2 : Player.t) :
  0 < distance p1 p2 < 2 * PLAYER_R ->
  0 <= dominanceRatio (Player.score p1) (Player.score p2) <= 1 ->
  let overlap := 2 * PLAYER_R - distance p1 p2 in
  let ratio := dominanceRatio (Player.score p1) (Player.score p2) in
  distance p1 (fst (resolvePair p1 p2)) = overlap * (1 - ratio) /\
  distance p2 (snd (resolvePair p1 p2)) = overlap * ratio /\
  distance (fst (resolvePair p1 p2)) (snd (resolvePair p1 p2)) = 2 * PLAYER_R.
Proof.
  intros Hd Hr overlap ratio.
  rewrite (resolvePair_overlapping _ _ Hd). cbv zeta. cbn [fst snd].
  fold overlap ratio.
  pose proof (unit_normal (Player.x p2 - Player.x p1) (Player.y p2 - Player.y p1))
    as Hunit.
  cbv zeta in Hunit. fold (distance p1 p2) in Hunit.
  specialize (Hunit (proj1 Hd)).
  set (d := distance p1 p2) in *.
  set (nx := (Player.x p2 - Player.x p1) / d) in *.
  set (ny := (Player.y p2 - Player.y p1) / d) in *.
  assert (Ho : 0 < overlap) by (unfold overlap; lra).
  change (0 <= ratio <= 1) in Hr.
  assert (H1 : 0 <= overlap * (1 - ratio)) by (apply Rmult_le_pos; lra).
  assert (H2 : 0 <= overlap * ratio) by (apply Rmult_le_pos; lra).
  assert (Hdx : Player.x p2 - Player.x p1 = nx * d)
    by (unfold nx; field; lra).
  assert (Hdy : Player.y p2 - Player.y p1 = ny * d)
    by (unfold ny; field; lra).
  unfold distance at 1 2 3. cbn [Player.x Player.y].
  repeat split.
  - rewrite <- (sqrt_scaled nx ny (overlap * (1 - ratio)) Hunit H1).
    f_equal. ring.
  - rewrite <- (sqrt_scaled nx ny (overlap * ratio) Hunit H2).
    f_equal. ring.
  - rewrite <- (sqrt_scaled nx ny (2 * PLAYER_R) Hunit)
      by (unfold PLAYER_R; lra).
    f_equal.
    replace (Player.x p2 + nx * overlap * ratio
             - (Player.x p1 - nx * overlap * (1 - ratio)))
      with (Player.x p2 - Player.x p1 + nx * overlap) by ring.
    replace (Player.y p2 + ny * overlap * ratio
             - (Player.y p1 - ny * overlap * (1 - ratio)))
      with (Player.y p2 - Player.y p1 + ny * overlap) by ring.
    rewrite Hdx, Hdy. unfold overlap. ring.
Qed.

(** ** The loop, phase by phase *)

Lemma coinPhase_no_coins (ps : Obj.t Player.t) : coinPhase ps [] = (ps, []).
Proof.
  induction ps as [| [k p] rest IH]; [ reflexivity | ].
  cbn [coinPhase collectCoins]. rewrite IH. reflexivity.
Qed.

Lemma collidePlayerArr_one (p : Player.t) : collidePlayerArr [p] = [p].
Proof. reflexivity. Qed.

Lemma collidePlayerArr_two (p1 p2 : Player.t) :
  collidePlayerArr [p1; p2] =
    [fst (resolvePair p1 p2); snd (resolvePair p1 p2)].
Proof.
  unfold collidePlayerArr. cbn [List.length seq Nat.sub fold_left].
  unfold collideAt. cbn [nth_error].
  destruct (resolvePair p1 p2) as [q1 q2]. reflexivity.
Qed.

Lemma length_setNth {A : Type} (l : list A) :
  forall (i : nat) (a : A), List.length (setNth i a l) = List.length l.
Proof.
  induction l as [| b l IH]; intros [| i] a; cbn [setNth List.length];
    try reflexivity.
  rewrite IH. reflexivity.
Qed.

Lemma length_collideAt (arr : list Player.t) (i j : nat) :
  List.length (collideAt arr i j) = List.length arr.
Proof.
  unfold collideAt.
  destruct (nth_error arr i) as [p1 |]; [ | reflexivity ].
  destruct (nth_error arr j) as [p2 |]; [ | reflexivity ].
  destruct (resolvePair p1 p2) as [q1 q2]. rewrite !length_setNth. reflexivity.
Qed.

Lemma length_fold_left {A B : Type} (f : list A -> B -> list A) (bs : list B) :
  (forall a b, List.length (f a b) = List.length a) ->
  forall a, List.length (fold_left f bs a) = List.length a.
Proof.
  intros Hf. induction bs as [| b bs IH]; intros a; cbn [fold_left].
  - reflexivity.
  - rewrite IH. apply Hf.
Qed.

Lemma length_collidePlayerArr (arr : list Player.t) :
  List.length (collidePlayerArr arr) = List.length arr.
Proof.
  unfold collidePlayerArr. apply length_fold_left.
  intros a i. apply length_fold_left. intros a' j. apply length_collideAt.
Qed.

Lemma map_fst_combine_same {A B : Type} (l : list A) :
  forall l' : list B,
    List.length l = List.length l' -> map fst (combine l l') = l.
Proof.
  induction l as [| a l IH]; intros [| b l'] Hlen; cbn in *;
    try reflexivity; try discriminate.
  f_equal. apply IH. lia.
Qed.

(** The resolution moves players, it neither adds nor drops a key. *)
Lemma collidePlayers_keys (ps : Obj.t Player.t) :
  Obj.keys (collidePlayers ps) = Obj.keys ps.
Proof.
  unfold collidePlayers, Obj.keys.
  apply map_fst_combine_same.
  rewrite length_collidePlayerArr. unfold Obj.values. rewrite !length_map.
  reflexivity.
Qed.

Section LoopFacts.

Variable JSON_parse : string -> option JSValue.
Variable JSON_stringify : OutMsg -> string.

Lemma tick_players (e : Tick.env) (w : World.t) :
  World.players (tick JSON_parse JSON_stringify e w) =
    fst (physics
           (fst (processInboundQueue JSON_parse (Tick.tDrain e) (Tick.tHandle e)
                                     (World.players w) (World.inboundQueue w)))
           (World.coins w)).
Proof.
  unfold tick.
  destruct (processInboundQueue _ _ _ _ _) as [ps1 q1].
  destruct (physics _ _) as [ps2 cs2].
  destruct (spawnStep _ _ _ _ _) as [[cs3 next3] last3].
  reflexivity.
Qed.

End LoopFacts.

(** ** Scenario arithmetic *)

Lemma distance_on_a_row (p q : Player.t) (d : R) :
  Player.y q = Player.y p -> Player.x q - Player.x p = d -> 0 <= d ->
  distance p q = d.
Proof.
  intros Hy Hx Hd. unfold distance. rewrite Hy, Hx.
  replace (d * d + (Player.y p - Player.y p) * (Player.y p - Player.y p))
    with (d * d) by ring.
  apply sqrt_sq_pos; exact Hd.
Qed.

Lemma distance_A_B (s t : Z) : distance (playerA s) (playerB t) = 8.
Proof.
  apply distance_on_a_row; cbn [playerA playerB Player.x Player.y]; lra.
Qed.

Lemma ratio_other_zero (s : Z) : dominanceRatio s 0 = 0.
Proof. unfold dominanceRatio, Rdiv. apply Rmult_0_l. Qed.

Lemma walker_moved :
  movePlayer walker = Player.mk 2 (95 / 2) 100 0 pressLeft (Some 1).
Proof.
  rewrite movePlayer_cases.
  replace (moving walker) with true by reflexivity.
  assert (Hadv : advanced walker = (95 / 2, 100)).
  { unfold advanced. cbn [walker Player.input Player.x Player.y pressLeft
                          Input.left Input.right Input.up Input.down].
    replace (axis (JBool true) (JBool false)) with (-1)%Z by reflexivity.
    replace (axis (JBool false) (JBool false)) with 0%Z by reflexivity.
    replace (-1 * -1 + 0 * 0)%Z with 1%Z by reflexivity.
    rewrite sqrt_1.
    replace (speedFactor walker) with 1 by reflexivity.
    unfold PLAYER_SPEED, PHYS_DT. f_equal; field. }
  rewrite Hadv. cbn [fst snd walker Player.id Player.score Player.input].
  rewrite !clamp_inside by (unfold PLAYER_R, MAP_W, MAP_H; lra).
  reflexivity.
Qed.

Lemma atWall_stays : movePlayer atWall = atWall.
Proof.
  apply movePlayer_idle; [ reflexivity | ].
  unfold inBounds, atWall, PLAYER_R, MAP_W, MAP_H. cbn [Player.x Player.y]. lra.
Qed.

Lemma bumped_stays : movePlayer bumped = bumped.
Proof.
  apply movePlayer_idle; [ reflexivity | ].
  unfold inBounds, bumped, PLAYER_R, MAP_W, MAP_H. cbn [Player.x Player.y]. lra.
Qed.

(** ** C1: the bounds after a whole firing *)

(** Right after the movement phase every player is on the map. *)
Lemma movement_phase_inBounds (ps : Obj.t Player.t) (k : Z) (p : Player.t) :
  In (k, p) (movePlayers ps) -> inBounds p.
Proof.
  intros Hin. pose proof (movePlayers_inBounds ps) as Hall.
  rewrite Forall_forall in Hall. apply Hall.
  unfold Obj.values. apply in_map_iff. exists (k, p). split; [ reflexivity | exact Hin ].
Qed.

Lemma wallWorld_resolved :
  World.players (tick noParse noText quietEnv wallWorld) =
    [(1%Z, Player.mk 1 (31 / 2) 100 0 Input.initial (Some (8 / 10)));
     (2%Z, Player.mk 2 (95 / 2) 100 0 pressLeft (Some (8 / 10)))].
Proof.
  rewrite tick_players.
  replace (fst (processInboundQueue noParse (Tick.tDrain quietEnv)
                  (Tick.tHandle quietEnv) (World.players wallWorld)
                  (World.inboundQueue wallWorld)))
    with [(1%Z, atWall); (2%Z, walker)] by reflexivity.
  unfold physics. cbn [wallWorld World.coins].
  rewrite coinPhase_no_coins. cbn [fst].
  unfold movePlayers. cbn [map fst snd].
  rewrite atWall_stays, walker_moved.
  unfold collidePlayers, Obj.keys, Obj.values. cbn [map fst snd].
  rewrite collidePlayerArr_two.
  set (w := Player.mk 2 (95 / 2) 100 0 pressLeft (Some 1)).
  assert (Hd : distance atWall w = 63 / 2).
  { apply distance_on_a_row; cbn [atWall w Player.x Player.y]; lra. }
  rewrite resolvePair_overlapping by (rewrite Hd; unfold PLAYER_R; lra).
  cbv zeta. rewrite Hd.
  cbn [combine fst snd atWall w Player.x Player.y Player.id Player.score
       Player.input].
  rewrite ratio_other_zero. unfold PLAYER_R.
  replace (16 - (95 / 2 - 16) / (63 / 2) * (2 * 16 - 63 / 2) * (1 - 0))
    with (31 / 2) by field.
  replace (100 - (100 - 100) / (63 / 2) * (2 * 16 - 63 / 2) * (1 - 0))
    with 100 by field.
  replace (95 / 2 + (95 / 2 - 16) / (63 / 2) * (2 * 16 - 63 / 2) * 0)
    with (95 / 2) by field.
  replace (100 + (100 - 100) / (63 / 2) * (2 * 16 - 63 / 2) * 0)
    with 100 by field.
  reflexivity.
Qed.

(** C1 (code defect): the clamp runs in the movement phase only, and the
    player-player resolution that follows can push a player off the map.
    A player resting against the left wall ([x = 16]) and a second one that
    walks into it ([x = 55], pressing left) start a firing on the map; when
    the firing is over the first player stands at [x = 15.5], outside
    [[PLAYER_R, MAP_W - PLAYER_R]]. *)
Theorem C1_collision_pushes_player_off_map :
  Forall inBounds (Obj.values (World.players wallWorld)) /\
  exists q,
    Obj.get 1 (World.players (tick noParse noText quietEnv wallWorld)) = Some q /\
    Player.x q = 31 / 2 /\
    Player.x q < PLAYER_R /\
    ~ inBounds q.
Proof.
  split.
  - cbn [wallWorld World.players Obj.values map snd].
    repeat constructor;
      cbn [atWall walker Player.x Player.y]; unfold PLAYER_R, MAP_W, MAP_H; lra.
  - rewrite wallWorld_resolved. eexists. split; [ reflexivity | ].
    cbn [Player.x]. unfold inBounds, PLAYER_R. cbn [Player.x Player.y].
    repeat split; lra.
Qed.

(** ** C2: equal scores *)

Lemma ratio_equal_scores (s : Z) :
  (0 <= s)%Z ->
  dominanceRatio s s = IZR s / IZR (2 * s + 1) /\ dominanceRatio s s < 1 / 2.
Proof.
  intros Hs. unfold dominanceRatio.
  replace (s + s + 1)%Z with (2 * s + 1)%Z by lia.
  split; [ reflexivity | ].
  assert (Ht : 0 < IZR (2 * s + 1)) by (apply IZR_lt; lia).
  assert (Heq : IZR (2 * s + 1) = 2 * IZR s + 1)
    by (rewrite plus_IZR, mult_IZR; reflexivity).
  apply Rmult_lt_reg_r with (IZR (2 * s + 1)); [ exact Ht | ].
  unfold Rdiv. rewrite Rmult_assoc, Rinv_l by lra. lra.
Qed.

(** C2 (as amended): with equal scores [s] the ratio is [s / (2s + 1)],
    strictly below one half, so the overlap is not split evenly: the first
    player of the pair is moved by [overlap * (s + 1) / (2s + 1)] and the
    second by [overlap * s / (2s + 1)], away from each other along the
    separation axis. *)
Theorem C2_equal_scores_uneven_split (p1 p2 : Player.t) (s : Z) :
  (0 <= s)%Z ->
  Player.score p1 = s -> Player.score p2 = s ->
  0 < distance p1 p2 < 2 * PLAYER_R ->
  let overlap := 2 * PLAYER_R - distance p1 p2 in
  let nx := (Player.x p2 - Player.x p1) / distance p1 p2 in
  let ny := (Player.y p2 - Player.y p1) / distance p1 p2 in
  let q1 := fst (resolvePair p1 p2) in
  let q2 := snd (resolvePair p1 p2) in
  dominanceRatio s s = IZR s / IZR (2 * s + 1) /\
  dominanceRatio s s < 1 / 2 /\
  Player.x q1 = Player.x p1 - nx * (overlap * (IZR (s + 1) / IZR (2 * s + 1))) /\
  Player.y q1 = Player.y p1 - ny * (overlap * (IZR (s + 1) / IZR (2 * s + 1))) /\
  Player.x q2 = Player.x p2 + nx * (overlap * (IZR s / IZR (2 * s + 1))) /\
  Player.y q2 = Player.y p2 + ny * (overlap * (IZR s / IZR (2 * s + 1))) /\
  distance p1 q1 = overlap * (IZR (s + 1) / IZR (2 * s + 1)) /\
  distance p2 q2 = overlap * (IZR s / IZR (2 * s + 1)).
Proof.
  intros Hs Hs1 Hs2 Hd overlap nx ny q1 q2.
  destruct (ratio_equal_scores s Hs) as [Hr Hhalf].
  assert (Ht : 0 < IZR (2 * s + 1)) by (apply IZR_lt; lia).
  assert (Hone : 1 - dominanceRatio s s = IZR (s + 1) / IZR (2 * s + 1)).
  { rewrite Hr. replace (2 * s + 1)%Z with (s + (s + 1))%Z by lia.
    rewrite (plus_IZR s (s + 1)). field.
    rewrite <- plus_IZR. apply not_0_IZR. lia. }
  pose proof (dominanceRatio_range s s Hs Hs) as Hrange.
  assert (Hrange' : 0 <= dominanceRatio (Player.score p1) (Player.score p2) <= 1)
    by (rewrite Hs1, Hs2; lra).
  destruct (resolvePair_displacement p1 p2 Hd Hrange') as [D1 [D2 _]].
  fold q1 q2 overlap in D1, D2. rewrite Hs1, Hs2 in D1, D2.
  rewrite Hone in D1. rewrite Hr in D2.
  split; [ exact Hr | ]. split; [ exact Hhalf | ].
  unfold q1, q2. rewrite (resolvePair_overlapping _ _ Hd).
  cbv zeta. cbn [fst snd Player.x Player.y].
  rewrite Hs1, Hs2. fold nx ny overlap. rewrite Hone, Hr.
  repeat split; try ring.
  - unfold q1 in D1. rewrite (resolvePair_overlapping _ _ Hd) in D1.
    cbv zeta in D1. cbn [fst] in D1. rewrite Hs1, Hs2, Hone in D1.
    fold nx ny overlap in D1. exact D1.
  - unfold q2 in D2. rewrite (resolvePair_overlapping _ _ Hd) in D2.
    cbv zeta in D2. cbn [snd] in D2. rewrite Hs1, Hs2, Hr in D2.
    fold nx ny overlap in D2. exact D2.
Qed.

Lemma overlapping_A_B (s t : Z) :
  0 < distance (playerA s) (playerB t) < 2 * PLAYER_R.
Proof. rewrite distance_A_B. unfold PLAYER_R. lra. Qed.

(** C2 at the scenario of the specification: A at (100,100), B at (108,100),
    both with score 0. *)
Lemma C2_equal_scores_uneven_split_witness :
  (0 <= 0)%Z /\
  0 < distance (playerA 0) (playerB 0) < 2 * PLAYER_R /\
  dominanceRatio 0 0 = IZR 0 / IZR (2 * 0 + 1) /\
  distance (playerB 0) (snd (resolvePair (playerA 0) (playerB 0)))
    = (2 * PLAYER_R - distance (playerA 0) (playerB 0))
      * (IZR 0 / IZR (2 * 0 + 1)).
Proof.
  pose proof (C2_equal_scores_uneven_split (playerA 0) (playerB 0) 0
                ltac:(lia) eq_refl eq_refl (overlapping_A_B 0 0)) as H.
  cbv zeta in H.
  split; [ lia | ]. split; [ apply overlapping_A_B | ].
  split; [ apply H | apply H ].
Defined.

(** C2 as worded fails for A at (100,100) and B at (108,100) with scores 0
    and 0: the ratio is 0, A is moved by the whole overlap (24, to x = 76)
    and B stays where it is, so neither is moved by half the overlap. *)
Lemma C2_zero_scores_not_split_evenly :
  let q1 := fst (resolvePair (playerA 0) (playerB 0)) in
  let q2 := snd (resolvePair (playerA 0) (playerB 0)) in
  let overlap := 2 * PLAYER_R - distance (playerA 0) (playerB 0) in
  dominanceRatio 0 0 <> 1 / 2 /\
  Player.x q1 = 76 /\ Player.x q2 = 108 /\
  distance (playerA 0) q1 <> overlap / 2 /\
  distance (playerB 0) q2 <> overlap / 2.
Proof.
  cbv zeta.
  pose proof (overlapping_A_B 0 0) as Hd.
  assert (Hr : 0 <= dominanceRatio (Player.score (playerA 0))
                                   (Player.score (playerB 0)) <= 1)
    by (cbn [playerA playerB Player.score]; rewrite ratio_other_zero; lra).
  destruct (resolvePair_displacement _ _ Hd Hr) as [D1 [D2 _]].
  cbn [playerA playerB Player.score] in D1, D2.
  rewrite ratio_other_zero in D1, D2. rewrite D1, D2.
  rewrite (resolvePair_overlapping _ _ Hd). cbv zeta.
  cbn [fst snd Player.x Player.y playerA playerB Player.score].
  rewrite !distance_A_B, ratio_other_zero. unfold PLAYER_R.
  repeat split; try lra; field.
Qed.

(** ** C3: the ratio and the two displacements *)

(** C3 (as amended): for non-negative scores the dominance ratio
    [p2.score / (p1.score + p2.score + 1)] that a resolution of the pair
    [(p1, p2)] uses lies in the half-open interval [[0, 1)], and it is 0
    exactly when the second player of the pair has score 0. *)
Theorem C3_ratio_in_half_open_interval (p1 p2 : Player.t) :
  (0 <= Player.score p1)%Z -> (0 <= Player.score p2)%Z ->
  let ratio := dominanceRatio (Player.score p1) (Player.score p2) in
  0 <= ratio < 1 /\
  (ratio = 0 <-> Player.score p2 = 0%Z).
Proof.
  intros H1 H2 ratio.
  split; [ apply dominanceRatio_range; assumption | ].
  unfold ratio, dominanceRatio. split.
  - intros Hz.
    assert (Ht : 0 < IZR (Player.score p1 + Player.score p2 + 1))
      by (apply IZR_lt; lia).
    apply eq_IZR.
    apply Rmult_eq_reg_r with (/ IZR (Player.score p1 + Player.score p2 + 1)).
    + unfold Rdiv in Hz. rewrite Hz. ring.
    + apply Rinv_neq_0_compat. lra.
  - intros ->. unfold Rdiv. apply Rmult_0_l.
Qed.

Lemma C3_ratio_in_half_open_interval_witness :
  (0 <= Player.score (playerA 10))%Z /\
  (0 <= Player.score (playerB 0))%Z /\
  0 <= dominanceRatio 10 0 < 1 /\
  dominanceRatio 10 0 = 0.
Proof.
  assert (Ha : (0 <= Player.score (playerA 10))%Z) by (cbn; lia).
  assert (Hb : (0 <= Player.score (playerB 0))%Z) by (cbn; lia).
  pose proof (C3_ratio_in_half_open_interval (playerA 10) (playerB 0) Ha Hb) as H.
  cbv zeta in H. cbn [playerA playerB Player.score] in H.
  split; [ exact Ha | ]. split; [ exact Hb | ].
  split; [ apply H | apply H; reflexivity ].
Defined.

(** C3 as worded fails for A (score 10) at (100,100) and B (score 0) at
    (108,100): the ratio is 0, outside the open interval, and the score-10
    player is moved by 24 while the score-0 player is not moved. *)
Lemma C3_high_scorer_not_moved_less :
  let q1 := fst (resolvePair (playerA 10) (playerB 0)) in
  let q2 := snd (resolvePair (playerA 10) (playerB 0)) in
  ~ (0 < dominanceRatio 10 0 < 1) /\
  distance (playerA 10) q1 = 24 /\
  distance (playerB 0) q2 = 0 /\
  ~ (distance (playerA 10) q1 < distance (playerB 0) q2).
Proof.
  cbv zeta.
  pose proof (overlapping_A_B 10 0) as Hd.
  assert (Hr : 0 <= dominanceRatio (Player.score (playerA 10))
                                   (Player.score (playerB 0)) <= 1)
    by (cbn [playerA playerB Player.score]; rewrite ratio_other_zero; lra).
  destruct (resolvePair_displacement _ _ Hd Hr) as [D1 [D2 _]].
  cbn [playerA playerB Player.score] in D1, D2.
  rewrite ratio_other_zero, distance_A_B in D1, D2. unfold PLAYER_R in D1, D2.
  rewrite D1, D2, ratio_other_zero.
  repeat split; lra.
Qed.

(** ** C4: the speed-loss multiplier *)

Lemma resolvePair_sets_penalty (p1 p2 : Player.t) :
  0 < distance p1 p2 < 2 * PLAYER_R ->
  Player.inputSpeedLoss (fst (resolvePair p1 p2)) = Some (8 / 10) /\
  Player.inputSpeedLoss (snd (resolvePair p1 p2)) = Some (8 / 10).
Proof.
  intros Hd. rewrite (resolvePair_overlapping _ _ Hd). split; reflexivity.
Qed.

Lemma speedFactor_penalty (p : Player.t) :
  Player.inputSpeedLoss p = Some (8 / 10) -> speedFactor p = 8 / 10.
Proof.
  intros H. unfold speedFactor. rewrite H.
  destruct (Req_dec_T (8 / 10) 0); [ lra | reflexivity ].
Qed.

(** C4 (as amended): a player that carries the 0.8 multiplier uses it and
    resets it to 1 in a firing where its intent has a direction; in a firing
    where the intent has none the multiplier is neither used nor reset. *)
Theorem C4_penalty_kept_until_next_move (p : Player.t) :
  Player.inputSpeedLoss p = Some (8 / 10) ->
  speedFactor p = 8 / 10 /\
  Player.inputSpeedLoss (movePlayer p)
    = (if moving p then Some 1 else Some (8 / 10)) /\
  speedFactor (movePlayer p) = (if moving p then 1 else 8 / 10) /\
  Player.x (movePlayer p)
    = clamp PLAYER_R (MAP_W - PLAYER_R)
        (if moving p then fst (advanced p) else Player.x p) /\
  Player.y (movePlayer p)
    = clamp PLAYER_R (MAP_H - PLAYER_R)
        (if moving p then snd (advanced p) else Player.y p).
Proof.
  intros H. pose proof (speedFactor_penalty p H) as Hf.
  split; [ exact Hf | ].
  rewrite movePlayer_cases. destruct (moving p).
  - cbn [Player.inputSpeedLoss Player.x Player.y]. repeat split.
    unfold speedFactor. cbn [Player.inputSpeedLoss].
    destruct (Req_dec_T 1 0); [ lra | reflexivity ].
  - cbn [Player.inputSpeedLoss Player.x Player.y]. repeat split; try exact H.
    unfold speedFactor. cbn [Player.inputSpeedLoss]. rewrite H.
    destruct (Req_dec_T (8 / 10) 0); [ lra | reflexivity ].
Qed.

Lemma C4_penalty_kept_until_next_move_witness :
  Player.inputSpeedLoss bumped = Some (8 / 10) /\
  Player.inputSpeedLoss (movePlayer bumped) = Some (8 / 10).
Proof.
  split; [ reflexivity | ].
  exact (proj1 (proj2 (C4_penalty_kept_until_next_move bumped eq_refl))).
Defined.

(** C4 as worded fails for an idle player: a whole firing of the loop leaves
    its multiplier at 0.8. *)
Lemma C4_idle_player_keeps_penalty :
  exists q,
    Obj.get 1 (World.players (tick noParse noText quietEnv bumpedWorld)) = Some q /\
    Player.inputSpeedLoss q = Some (8 / 10) /\
    Player.inputSpeedLoss q <> Some 1.
Proof.
  rewrite tick_players.
  replace (fst (processInboundQueue noParse (Tick.tDrain quietEnv)
                  (Tick.tHandle quietEnv) (World.players bumpedWorld)
                  (World.inboundQueue bumpedWorld)))
    with [(1%Z, bumped)] by reflexivity.
  unfold physics. cbn [bumpedWorld World.coins].
  rewrite coinPhase_no_coins. cbn [fst].
  unfold movePlayers. cbn [map fst snd]. rewrite bumped_stays.
  unfold collidePlayers, Obj.keys, Obj.values. cbn [map fst snd].
  rewrite collidePlayerArr_one. cbn [combine].
  exists bumped. split; [ reflexivity | ].
  split; [ reflexivity | ].
  cbn [bumped Player.inputSpeedLoss]. intros Heq.
  injection Heq as Heq. lra.
Qed.

(** ** The inbound queue *)

Section Drain.

Variable JSON_parse : string -> option JSValue.

Lemma nth_error_skipn_cons {A : Type} (l : list A) (i : nat) (a : A) :
  nth_error l i = Some a -> skipn i l = a :: skipn (S i) l.
Proof.
  revert i. induction l as [| b l IH]; intros [| i] H; cbn in *;
    try discriminate.
  - injection H as ->. reflexivity.
  - apply IH. exact H.
Qed.

Lemma firstn_snoc_nth {A : Type} (l : list A) (i : nat) (a : A) :
  nth_error l i = Some a -> firstn (S i) l = firstn i l ++ [a].
Proof.
  revert i. induction l as [| b l IH]; intros [| i] H; cbn in *;
    try discriminate.
  - injection H as ->. reflexivity.
  - f_equal. apply IH. exact H.
Qed.

Lemma splice1_parts {A : Type} (l : list A) (i : nat) (a : A) :
  nth_error l i = Some a ->
  firstn i (splice1 i l) = firstn i l /\
  skipn i (splice1 i l) = skipn (S i) l /\
  S (List.length (splice1 i l)) = List.length l.
Proof.
  intros H. unfold splice1.
  assert (Hlt : (i < List.length l)%nat)
    by (apply nth_error_Some; rewrite H; discriminate).
  assert (Hlen : List.length (firstn i l) = i)
    by (rewrite length_firstn; lia).
  repeat split.
  - rewrite firstn_app, Hlen, Nat.sub_diag. cbn [firstn].
    rewrite app_nil_r. rewrite <- Hlen at 1. apply firstn_all.
  - rewrite skipn_app, Hlen, Nat.sub_diag. cbn [skipn].
    rewrite <- Hlen at 1. rewrite skipn_all. reflexivity.
  - rewrite length_app, Hlen, length_skipn. lia.
Qed.

(** The loop against the specification's wording, from any iteration on. *)
Lemma drainLoop_spec (now : Z) (clock : nat -> Z) (fuel : nat) :
  forall (iter i : nat) (players : Obj.t Player.t) (q : list Envelope.t),
    (List.length q - i <= fuel)%nat ->
    drainLoop JSON_parse fuel now clock iter i players q =
      (applyReady JSON_parse now clock iter (skipn i q) players,
       firstn i q ++ filter (waiting now) (skipn i q)).
Proof.
  induction fuel as [| fuel IH]; intros iter i players q Hfuel.
  - assert (Hlen : (List.length q <= i)%nat) by lia.
    cbn [drainLoop]. rewrite (skipn_all2 q Hlen), (firstn_all2 q Hlen).
    cbn [applyReady filter]. rewrite app_nil_r. reflexivity.
  - cbn [drainLoop]. destruct (nth_error q i) as [e |] eqn:He.
    + rewrite (nth_error_skipn_cons _ _ _ He). cbn [applyReady filter].
      unfold waiting at 1. fold (ready now e).
      destruct (ready now e) eqn:Hr; cbn [negb].
      * destruct (splice1_parts _ _ _ He) as [Hf [Hs Hl]].
        rewrite IH by lia. rewrite Hf, Hs. reflexivity.
      * rewrite IH by lia. rewrite (firstn_snoc_nth _ _ _ He).
        rewrite <- app_assoc. reflexivity.
    + apply nth_error_None in He.
      rewrite (skipn_all2 q He), (firstn_all2 q He).
      cbn [applyReady filter]. rewrite app_nil_r. reflexivity.
Qed.

Lemma processInboundQueue_spec (now : Z) (clock : nat -> Z)
    (players : Obj.t Player.t) (q : list Envelope.t) :
  processInboundQueue JSON_parse now clock players q =
    (applyReady JSON_parse now clock 0 q players, filter (waiting now) q).
Proof.
  unfold processInboundQueue. rewrite drainLoop_spec by lia. reflexivity.
Qed.

(** The loop stops because the index reaches the end: more fuel changes
    nothing. *)
Lemma drainLoop_fuel_irrelevant (now : Z) (clock : nat -> Z) (extra : nat)
    (players : Obj.t Player.t) (q : list Envelope.t) :
  drainLoop JSON_parse (List.length q + extra) now clock 0 0 players q =
    processInboundQueue JSON_parse now clock players q.
Proof.
  rewrite processInboundQueue_spec. rewrite drainLoop_spec by lia. reflexivity.
Qed.

Lemma applyReady_app (now : Z) (clock : nat -> Z) (q1 q2 : list Envelope.t) :
  forall (iter : nat) (players : Obj.t Player.t),
    applyReady JSON_parse now clock iter (q1 ++ q2) players =
      applyReady JSON_parse now clock (iter + List.length q1) q2
        (applyReady JSON_parse now clock iter q1 players).
Proof.
  induction q1 as [| e q1 IH]; intros iter players; cbn [app applyReady List.length].
  - rewrite Nat.add_0_r. reflexivity.
  - rewrite IH. rewrite <- Nat.add_succ_comm. reflexivity.
Qed.

End Drain.

(** ** Registry lookups after a write *)

Lemma get_set {V : Type} (k k' : Z) (v : V) (o : list (Z * V)) :
  Obj.get k (Obj.set k' v o) = if (k =? k')%Z then Some v else Obj.get k o.
Proof.
  induction o as [| [k0 v0] rest IH]; cbn [Obj.set Obj.get].
  - reflexivity.
  - destruct (k' =? k0)%Z eqn:E1.
    + apply Z.eqb_eq in E1. subst k0. cbn [Obj.get].
      destruct (k =? k')%Z; reflexivity.
    + destruct (k' <? k0)%Z eqn:E2; cbn [Obj.get].
      * destruct (k =? k')%Z; reflexivity.
      * rewrite IH. destruct (k =? k0)%Z eqn:E3; [ | reflexivity ].
        apply Z.eqb_eq in E3. subst k0.
        rewrite Z.eqb_sym, E1. reflexivity.
Qed.

Lemma handleMsg_keeps_known (now : Z) (ws ws' : WS.t) (msg : JSValue)
    (players players' : Obj.t Player.t) :
  handleMsg now ws msg players = Returned players' ->
  knownPlayer players' ws' = knownPlayer players ws'.
Proof.
  unfold handleMsg. intros H.
  destruct (WS.playerId ws) as [pid |]; [ | injection H as <-; reflexivity ].
  destruct (pid =? 0)%Z; [ injection H as <-; reflexivity | ].
  destruct (Obj.get pid players) as [player |] eqn:Hget;
    [ | injection H as <-; reflexivity ].
  destruct (readProp msg "type") as [ty |]; cbn [bind] in H; [ | discriminate ].
  destruct (isInputTag ty); [ | injection H as <-; reflexivity ].
  repeat match type of H with
         | bind ?m _ = _ => destruct m; cbn [bind] in H; [ | discriminate ]
         end.
  injection H as <-.
  unfold knownPlayer. destruct (WS.playerId ws') as [pid' |]; [ | reflexivity ].
  rewrite get_set. destruct (pid' =? pid)%Z eqn:E; [ | reflexivity ].
  apply Z.eqb_eq in E. subst pid'. rewrite Hget. reflexivity.
Qed.

Section DrainClaims.

Variable JSON_parse : string -> option JSValue.

Lemma processEnvelope_keeps_known (t : Z) (e : Envelope.t) (ws : WS.t)
    (players : Obj.t Player.t) :
  knownPlayer (processEnvelope JSON_parse t e players) ws = knownPlayer players ws.
Proof.
  unfold processEnvelope.
  destruct (JSON_parse (Envelope.raw e)) as [msg |]; cbn [bind]; [ | reflexivity ].
  destruct (handleMsg t (Envelope.ws e) msg players) as [players' |] eqn:H;
    [ | reflexivity ].
  eapply handleMsg_keeps_known. exact H.
Qed.

Lemma applyReady_keeps_known (now : Z) (clock : nat -> Z) (ws : WS.t)
    (q : list Envelope.t) :
  forall (iter : nat) (players : Obj.t Player.t),
    knownPlayer (applyReady JSON_parse now clock iter q players) ws
      = knownPlayer players ws.
Proof.
  induction q as [| e q IH]; intros iter players; cbn [applyReady].
  - reflexivity.
  - rewrite IH. destruct (ready now e); [ | reflexivity ].
    apply processEnvelope_keeps_known.
Qed.

Lemma processEnvelope_discarded (t : Z) (e : Envelope.t)
    (players : Obj.t Player.t) :
  discarded JSON_parse players e ->
  processEnvelope JSON_parse t e players = players.
Proof.
  intros [Hparse | Hknown]; unfold processEnvelope.
  - rewrite Hparse. reflexivity.
  - destruct (JSON_parse (Envelope.raw e)) as [msg |]; cbn [bind]; [ | reflexivity ].
    unfold knownPlayer in Hknown. unfold handleMsg.
    destruct (WS.playerId (Envelope.ws e)) as [pid |]; [ | reflexivity ].
    destruct (pid =? 0)%Z; [ reflexivity | ].
    destruct (Obj.get pid players); [ discriminate | reflexivity ].
Qed.

(** A payload that parses to [null] makes the handler throw at [msg.type]
    (for a known player) or return early (for an unknown one); the [catch]
    swallows the former. *)
Lemma processEnvelope_null_message (t : Z) (e : Envelope.t)
    (players : Obj.t Player.t) :
  JSON_parse (Envelope.raw e) = Some JNull ->
  processEnvelope JSON_parse t e players = players.
Proof.
  intros Hparse. unfold processEnvelope. rewrite Hparse. cbn [bind].
  unfold handleMsg.
  destruct (WS.playerId (Envelope.ws e)) as [pid |]; [ | reflexivity ].
  destruct (pid =? 0)%Z; [ reflexivity | ].
  destruct (Obj.get pid players); reflexivity.
Qed.

(** C5: a drain at [now] hands over exactly the envelopes stamped at or
    before [now], in arrival order, and leaves the others queued in their
    order; an envelope enqueued at [T] plays no part in a drain that runs
    before [T + SIM_LATENCY_MS] and is still queued after it. *)
Theorem C5_drain_takes_ready_envelopes_in_order
    (now T : Z) (clock : nat -> Z) (ws : WS.t) (raw : string)
    (players : Obj.t Player.t) (q : list Envelope.t) :
  processInboundQueue JSON_parse now clock players q =
    (applyReady JSON_parse now clock 0 q players,
     filter (fun e => negb (Envelope.processAt e <=? now)%Z) q) /\
  (forall e,
      In e (snd (processInboundQueue JSON_parse now clock players q)) <->
      In e q /\ (now < Envelope.processAt e)%Z) /\
  ((now < T + SIM_LATENCY_MS)%Z ->
   processInboundQueue JSON_parse now clock players (queueInbound T ws raw q) =
     (fst (processInboundQueue JSON_parse now clock players q),
      snd (processInboundQueue JSON_parse now clock players q)
        ++ [Envelope.mk (T + SIM_LATENCY_MS)%Z ws raw])).
Proof.
  split; [ apply processInboundQueue_spec | ]. split.
  - intros e. rewrite processInboundQueue_spec. cbn [snd].
    rewrite filter_In. unfold waiting, ready.
    rewrite negb_true_iff, Z.leb_gt. reflexivity.
  - intros Hearly. rewrite !processInboundQueue_spec. cbn [fst snd].
    unfold queueInbound. rewrite applyReady_app, filter_app.
    cbn [applyReady filter]. unfold waiting, ready. cbn [Envelope.processAt].
    replace (T + SIM_LATENCY_MS <=? now)%Z with false
      by (symmetry; apply Z.leb_gt; exact Hearly).
    reflexivity.
Qed.

(** C6: an envelope whose payload does not parse, or whose socket has no
    player in the registry, changes nothing when the drain reaches it: the
    registry after the drain is the one the envelopes around it produce, and
    the envelope is gone from the queue.  The drain itself is a total
    function: nothing escapes the [try]. *)
Theorem C6_discarded_envelope_is_dropped
    (now : Z) (clock : nat -> Z) (e : Envelope.t)
    (players : Obj.t Player.t) (q1 q2 : list Envelope.t) :
  discarded JSON_parse players e ->
  ready now e = true ->
  (forall t ps,
      knownPlayer ps (Envelope.ws e) = knownPlayer players (Envelope.ws e) ->
      processEnvelope JSON_parse t e ps = ps) /\
  processInboundQueue JSON_parse now clock players (q1 ++ e :: q2) =
    (applyReady JSON_parse now clock (S (List.length q1)) q2
       (applyReady JSON_parse now clock 0 q1 players),
     filter (waiting now) q1 ++ filter (waiting now) q2) /\
  ~ In e (snd (processInboundQueue JSON_parse now clock players (q1 ++ e :: q2))).
Proof.
  intros Hdisc Hready.
  assert (Hnoop : forall t ps,
             knownPlayer ps (Envelope.ws e) = knownPlayer players (Envelope.ws e) ->
             processEnvelope JSON_parse t e ps = ps).
  { intros t ps Hsame. apply processEnvelope_discarded.
    destruct Hdisc as [Hp | Hk]; [ left; exact Hp | right ].
    rewrite Hsame. exact Hk. }
  split; [ exact Hnoop | ].
  rewrite processInboundQueue_spec.
  split.
  - rewrite applyReady_app, filter_app. cbn [applyReady filter Nat.add].
    unfold waiting at 2. rewrite Hready. cbn [negb].
    rewrite Hnoop by apply applyReady_keeps_known.
    reflexivity.
  - cbn [snd]. intros Hin. apply filter_In in Hin.
    destruct Hin as [_ Hw]. unfold waiting in Hw. rewrite Hready in Hw.
    discriminate.
Qed.

End DrainClaims.

Lemma C5_drain_takes_ready_envelopes_in_order_witness :
  (1100 < 1000 + SIM_LATENCY_MS)%Z /\
  processInboundQueue tinyParse 1100 (fun _ => 1100%Z) [(1%Z, bumped)]
      (queueInbound 1000 socket1 "{}"%string [garbled]) =
    ([(1%Z, bumped)], [Envelope.mk 1200 socket1 "{}"%string]).
Proof.
  split; [ reflexivity | ].
  refine (eq_trans
            (proj2 (proj2 (C5_drain_takes_ready_envelopes_in_order
                      tinyParse 1100 1000 (fun _ => 1100%Z) socket1 "{}"%string
                      [(1%Z, bumped)] [garbled])) _) _);
    reflexivity.
Defined.

Lemma C6_discarded_envelope_is_dropped_witness :
  discarded tinyParse [(1%Z, bumped)] garbled /\
  ready 1000 garbled = true /\
  processInboundQueue tinyParse 1000 (fun _ => 1000%Z) [(1%Z, bumped)] [garbled]
    = ([(1%Z, bumped)], []).
Proof.
  assert (Hd : discarded tinyParse [(1%Z, bumped)] garbled)
    by (left; reflexivity).
  split; [ exact Hd | ]. split; [ reflexivity | ].
  exact (proj1 (proj2 (C6_discarded_envelope_is_dropped
                         tinyParse 1000 (fun _ => 1000%Z) garbled
                         [(1%Z, bumped)] [] [] Hd eq_refl))).
Defined.

(** ** C10: what an input message stores *)

(** C10: for an [input] message of a known player the registry afterwards
    holds, under the player's id, a player whose stored input has every
    direction as a boolean, the truthiness of the field received, and whose
    [stamp] is the one received only when that is truthy; an absent or falsy
    [stamp] (the number 0 included) is replaced by the clock reading.  The
    rest of that player and the other players are as before. *)
Theorem C10_input_intent_coerced
    (now pid : Z) (ws : WS.t) (fs : list (string * JSValue))
    (player : Player.t) (players : Obj.t Player.t) :
  WS.playerId ws = Some pid ->
  pid <> 0%Z ->
  Obj.get pid players = Some player ->
  lookupField "type" fs = JStr "input" ->
  exists players' q,
    handleMsg now ws (JObj fs) players = Returned players' /\
    players' = Obj.set pid (Player.setInput player (Player.input q)) players /\
    Obj.get pid players' = Some q /\
    Player.input q =
      Input.mk (JBool (truthy (lookupField "up" fs)))
               (JBool (truthy (lookupField "down" fs)))
               (JBool (truthy (lookupField "left" fs)))
               (JBool (truthy (lookupField "right" fs)))
               (if truthy (lookupField "stamp" fs) then lookupField "stamp" fs
                else JNum (inject_Z now)) /\
    Input.up (Player.input q) = JBool (truthy (lookupField "up" fs)) /\
    Input.down (Player.input q) = JBool (truthy (lookupField "down" fs)) /\
    Input.left (Player.input q) = JBool (truthy (lookupField "left" fs)) /\
    Input.right (Player.input q) = JBool (truthy (lookupField "right" fs)) /\
    Input.stamp (Player.input q) =
      (if truthy (lookupField "stamp" fs) then lookupField "stamp" fs
       else JNum (inject_Z now)) /\
    (lookupField "stamp" fs = JUndefined \/ lookupField "stamp" fs = JNum 0 ->
     Input.stamp (Player.input q) = JNum (inject_Z now)) /\
    body q = body player /\
    (forall k, k <> pid -> Obj.get k players' = Obj.get k players).
Proof.
  intros Hws Hpid Hget Hty.
  eexists. eexists.
  unfold handleMsg. rewrite Hws.
  replace (pid =? 0)%Z with false by (symmetry; apply Z.eqb_neq; exact Hpid).
  rewrite Hget. unfold readProp. cbn [getProp bind]. rewrite Hty.
  cbn [isInputTag]. replace (String.eqb "input" "input") with true by reflexivity.
  split; [ reflexivity | ].
  split; [ | split; [ rewrite get_set, Z.eqb_refl; reflexivity | ] ].
  - cbn [Player.setInput Player.input]. reflexivity.
  - cbn [Player.setInput Player.input
         Input.up Input.down Input.left Input.right Input.stamp].
    unfold jsOr.
    repeat (split; [ reflexivity | ]).
    split; [ intros [-> | ->]; reflexivity | ].
    split; [ reflexivity | ].
    intros k Hk. rewrite get_set.
    replace (k =? pid)%Z with false by (symmetry; apply Z.eqb_neq; exact Hk).
    reflexivity.
Qed.

Lemma C10_input_intent_coerced_witness :
  WS.playerId socket1 = Some 1%Z /\
  Obj.get 1 [(1%Z, bumped)] = Some bumped /\
  exists players' q,
    handleMsg 1234 socket1 (JObj inputMsg) [(1%Z, bumped)] = Returned players' /\
    Obj.get 1 players' = Some q /\
    Player.input q =
      Input.mk (JBool false) (JBool false) (JBool true) (JBool false)
               (JNum (inject_Z 1234)).
Proof.
  split; [ reflexivity | ]. split; [ reflexivity | ].
  destruct (C10_input_intent_coerced 1234 1 socket1 inputMsg bumped
              [(1%Z, bumped)] eq_refl ltac:(discriminate) eq_refl eq_refl)
    as [players' [q [Hrun [_ [Hq [Hin _]]]]]].
  exists players', q.
  split; [ exact Hrun | ]. split; [ exact Hq | ].
  rewrite Hin. reflexivity.
Defined.

(** ** C7: the spawner *)

Lemma length_set {V : Type} (k : Z) (v : V) (o : list (Z * V)) :
  (List.length o <= List.length (Obj.set k v o) <= S (List.length o))%nat.
Proof.
  induction o as [| [k0 v0] rest IH]; cbn [Obj.set List.length].
  - lia.
  - destruct (k =? k0)%Z; [ cbn [List.length]; lia | ].
    destruct (k <? k0)%Z; cbn [List.length]; lia.
Qed.

(** C7: the spawn block adds a coin only when the interval has elapsed and
    fewer than [MAX_COINS] coins are alive, adds at most one, never takes
    the count above [MAX_COINS], and restarts the timer whenever the
    interval has elapsed, whether or not a coin was added. *)
Theorem C7_spawner_respects_cap
    (tCheck tReset : Z) (rx ry : R)
    (cs : Obj.t Coin.t) (next last : Z) :
  (List.length cs <= MAX_COINS)%nat ->
  let elapsed := (COIN_SPAWN_INTERVAL <? tCheck - last)%Z in
  let room := (List.length (Obj.keys cs) <? MAX_COINS)%nat in
  let result := spawnStep tCheck tReset rx ry (cs, next, last) in
  let cs' := fst (fst result) in
  cs' = (if elapsed && room
         then Obj.set next
                (Coin.mk next (rx * (MAP_W - 40) + 20) (ry * (MAP_H - 40) + 20))
                cs
         else cs) /\
  snd (fst result) = (if elapsed && room then (next + 1)%Z else next) /\
  snd result = (if elapsed then tReset else last) /\
  (List.length cs' <= S (List.length cs))%nat /\
  (List.length cs' <= MAX_COINS)%nat /\
  (cs' <> cs -> elapsed = true /\ room = true).
Proof.
  intros Hcap elapsed room result cs'.
  pose proof (length_set next
                (Coin.mk next (rx * (MAP_W - 40) + 20) (ry * (MAP_H - 40) + 20))
                cs) as Hlen.
  assert (Hroom : room = true -> (List.length cs < MAX_COINS)%nat).
  { unfold room, Obj.keys. rewrite length_map. apply Nat.ltb_lt. }
  subst cs' result. unfold spawnStep. fold elapsed room.
  destruct elapsed; [ destruct room | ]; cbn [spawnCoin fst snd andb].
  - specialize (Hroom eq_refl).
    split; [ reflexivity | ]. split; [ reflexivity | ]. split; [ reflexivity | ].
    split; [ lia | ]. split; [ lia | ]. intros _. split; reflexivity.
  - split; [ reflexivity | ]. split; [ reflexivity | ]. split; [ reflexivity | ].
    split; [ lia | ]. split; [ lia | ]. intros Hne. contradiction.
  - split; [ reflexivity | ]. split; [ reflexivity | ]. split; [ reflexivity | ].
    split; [ lia | ]. split; [ lia | ]. intros Hne. contradiction.
Qed.

Lemma C7_spawner_respects_cap_witness :
  (List.length (@nil (Z * Coin.t)) <= MAX_COINS)%nat /\
  snd (spawnStep 5000 5001 (1 / 2) (1 / 2) ([], 1%Z, 1000%Z)) = 5001%Z.
Proof.
  split; [ unfold MAX_COINS; cbn; lia | ].
  refine (eq_trans
            (proj1 (proj2 (proj2 (C7_spawner_respects_cap 5000 5001 (1 / 2) (1 / 2)
                                    [] 1 1000 _)))) _).
  - unfold MAX_COINS. cbn. lia.
  - reflexivity.
Defined.

(** ** C8: the coin scan *)

Lemma touches_setScore (p : Player.t) (s : Z) (c : Coin.t) :
  touches (Player.setScore p s) c = touches p c.
Proof. reflexivity. Qed.

Lemma setScore_same (p : Player.t) : Player.setScore p (Player.score p + 0)%Z = p.
Proof. destruct p. unfold Player.setScore. cbn. rewrite Z.add_0_r. reflexivity. Qed.

(** One player's pass over the coins. *)
Lemma collectCoins_spec (cs : Obj.t Coin.t) :
  forall p : Player.t,
    collectCoins p cs =
      (Player.setScore p
         (Player.score p
          + Z.of_nat (List.length (filter (fun kc => touches p (snd kc)) cs)))%Z,
       filter (fun kc => negb (touches p (snd kc))) cs).
Proof.
  induction cs as [| [k c] rest IH]; intros p; cbn [collectCoins filter snd].
  - cbn [List.length Z.of_nat]. rewrite setScore_same. reflexivity.
  - destruct (touches p c) eqn:Ht; cbn [negb].
    + rewrite IH.
      change (fun kc : Z * Coin.t =>
                touches (Player.setScore p (Player.score p + 1)) (snd kc))
        with (fun kc : Z * Coin.t => touches p (snd kc)).
      cbn [List.length]. f_equal.
      unfold Player.setScore. cbn [Player.id Player.x Player.y Player.score
                                    Player.input Player.inputSpeedLoss].
      f_equal. lia.
    + rewrite IH. reflexivity.
Qed.

Lemma filter_filter {A : Type} (f g : A -> bool) (l : list A) :
  filter f (filter g l) = filter (fun a => g a && f a) l.
Proof.
  induction l as [| a l IH]; [ reflexivity | ].
  cbn [filter]. destruct (g a); cbn [filter andb]; rewrite IH; reflexivity.
Qed.

Lemma unclaimed_cons (k : Z) (p : Player.t) (rest : Obj.t Player.t)
    (kc : Z * Coin.t) :
  unclaimed ((k, p) :: rest) kc = negb (touches p (snd kc)) && unclaimed rest kc.
Proof.
  unfold unclaimed. cbn [firstToucher].
  destruct (touches p (snd kc)); [ reflexivity | ].
  destruct (firstToucher rest (snd kc)); reflexivity.
Qed.

Lemma claimedBy_head (k : Z) (p : Player.t) (rest : Obj.t Player.t)
    (kc : Z * Coin.t) :
  claimedBy ((k, p) :: rest) 0 kc = touches p (snd kc).
Proof.
  unfold claimedBy. cbn [firstToucher].
  destruct (touches p (snd kc)); [ reflexivity | ].
  destruct (firstToucher rest (snd kc)); reflexivity.
Qed.

Lemma claimedBy_tail (k : Z) (p : Player.t) (rest : Obj.t Player.t) (i : nat)
    (kc : Z * Coin.t) :
  claimedBy ((k, p) :: rest) (S i) kc
    = negb (touches p (snd kc)) && claimedBy rest i kc.
Proof.
  unfold claimedBy. cbn [firstToucher].
  destruct (touches p (snd kc)); [ reflexivity | ].
  destruct (firstToucher rest (snd kc)); reflexivity.
Qed.

Lemma coinPhase_coins (ps : Obj.t Player.t) :
  forall cs : Obj.t Coin.t, snd (coinPhase ps cs) = filter (unclaimed ps) cs.
Proof.
  induction ps as [| [k p] rest IH]; intros cs; cbn [coinPhase].
  - cbn [snd]. induction cs as [| kc cs IHc]; [ reflexivity | ].
    cbn [filter]. unfold unclaimed at 1. cbn [firstToucher]. f_equal. exact IHc.
  - rewrite collectCoins_spec.
    specialize (IH (filter (fun kc => negb (touches p (snd kc))) cs)).
    destruct (coinPhase rest _) as [rest' cs''].
    cbn [snd] in *. rewrite IH, filter_filter.
    apply filter_ext. intros kc. rewrite unclaimed_cons. reflexivity.
Qed.

Lemma coinPhase_players (ps : Obj.t Player.t) :
  forall (cs : Obj.t Coin.t) (i : nat) (k : Z) (p : Player.t),
    nth_error ps i = Some (k, p) ->
    nth_error (fst (coinPhase ps cs)) i =
      Some (k, Player.setScore p
                 (Player.score p
                  + Z.of_nat (List.length (filter (claimedBy ps i) cs)))%Z).
Proof.
  induction ps as [| [k0 p0] rest IH]; intros cs i k p Hnth.
  - destruct i; discriminate.
  - cbn [coinPhase]. rewrite collectCoins_spec.
    pose proof (IH (filter (fun kc => negb (touches p0 (snd kc))) cs)) as IH'.
    destruct (coinPhase rest _) as [rest' cs''].
    cbn [fst] in *. destruct i as [| i]; cbn [nth_error] in *.
    + injection Hnth as <- <-.
      rewrite (filter_ext _ _ (claimedBy_head k0 p0 rest)). reflexivity.
    + rewrite (IH' i k p Hnth), filter_filter.
      rewrite (filter_ext _ _ (claimedBy_tail k0 p0 rest i)). reflexivity.
Qed.

Lemma coinPhase_keys (ps : Obj.t Player.t) :
  forall cs : Obj.t Coin.t, Obj.keys (fst (coinPhase ps cs)) = Obj.keys ps.
Proof.
  induction ps as [| [k p] rest IH]; intros cs; cbn [coinPhase].
  - reflexivity.
  - destruct (collectCoins p cs) as [p' cs'].
    specialize (IH cs'). destruct (coinPhase rest cs') as [rest' cs''].
    cbn [fst Obj.keys map] in *. unfold Obj.keys in IH. rewrite IH. reflexivity.
Qed.

Lemma filter_split_length {A : Type} (f : A -> bool) (l : list A) :
  (List.length (filter f l) + List.length (filter (fun a => negb (f a)) l)
   = List.length l)%nat.
Proof.
  induction l as [| a l IH]; [ reflexivity | ].
  cbn [filter]. destruct (f a); cbn [negb List.length]; lia.
Qed.

Lemma coinPhase_total (ps : Obj.t Player.t) :
  forall cs : Obj.t Coin.t,
    (totalScore (fst (coinPhase ps cs))
     = totalScore ps
       + (Z.of_nat (List.length cs)
          - Z.of_nat (List.length (snd (coinPhase ps cs)))))%Z.
Proof.
  induction ps as [| [k p] rest IH]; intros cs; cbn [coinPhase].
  - cbn [fst snd totalScore fold_right]. lia.
  - rewrite collectCoins_spec.
    specialize (IH (filter (fun kc => negb (touches p (snd kc))) cs)).
    destruct (coinPhase rest _) as [rest' cs''].
    cbn [fst snd] in *. unfold totalScore in *. cbn [fold_right snd Player.score
                                                     Player.setScore].
    rewrite IH.
    pose proof (filter_split_length (fun kc => touches p (snd kc)) cs) as Hsplit.
    lia.
Qed.

Lemma touches_iff (p : Player.t) (c : Coin.t) :
  touches p c = true <->
  (Player.x p - Coin.x c) * (Player.x p - Coin.x c)
  + (Player.y p - Coin.y c) * (Player.y p - Coin.y c)
  <= (PLAYER_R + COIN_R) * (PLAYER_R + COIN_R).
Proof.
  unfold touches. destruct (Rle_dec _ _) as [H | H]; split; intros H';
    try assumption; try reflexivity; try discriminate; contradiction.
Qed.

Lemma firstToucher_spec (ps : Obj.t Player.t) (c : Coin.t) :
  forall i : nat,
    firstToucher ps c = Some i <->
    (exists k p, nth_error ps i = Some (k, p) /\ touches p c = true) /\
    (forall j k p, (j < i)%nat -> nth_error ps j = Some (k, p) ->
                   touches p c = false).
Proof.
  induction ps as [| [k0 p0] rest IH]; intros i; cbn [firstToucher].
  - split; [ discriminate | ].
    intros [[k [p [Hn _]]] _]. destruct i; discriminate.
  - destruct (touches p0 c) eqn:Ht.
    + split.
      * intros H. injection H as <-. split.
        -- exists k0, p0. split; [ reflexivity | exact Ht ].
        -- intros j k p Hj. lia.
      * intros [_ Hbefore]. destruct i as [| i]; [ reflexivity | ].
        specialize (Hbefore O k0 p0 ltac:(lia) eq_refl). congruence.
    + destruct i as [| i].
      * split.
        -- destruct (firstToucher rest c); discriminate.
        -- intros [[k [p [Hn Hp]]] _]. cbn [nth_error] in Hn.
           injection Hn as <- <-. congruence.
      * specialize (IH i). split.
        -- intros H. destruct (firstToucher rest c) as [n |] eqn:Hf;
             [ | discriminate ].
           cbn [option_map] in H. injection H as ->.
           destruct (proj1 IH eq_refl) as [Hex Hbefore]. split.
           ++ exact Hex.
           ++ intros j k p Hj Hn. destruct j as [| j]; cbn [nth_error] in Hn.
              ** injection Hn as <- <-. exact Ht.
              ** apply (Hbefore j k p); [ lia | exact Hn ].
        -- intros [Hex Hbefore].
           assert (Hrest : firstToucher rest c = Some i).
           { apply IH. split; [ exact Hex | ].
             intros j k p Hj Hn. apply (Hbefore (S j) k p); [ lia | exact Hn ]. }
           rewrite Hrest. reflexivity.
Qed.

Lemma firstToucher_none (ps : Obj.t Player.t) (c : Coin.t) :
  firstToucher ps c = None <->
  (forall k p, In (k, p) ps -> touches p c = false).
Proof.
  induction ps as [| [k0 p0] rest IH]; cbn [firstToucher].
  - split; [ intros _ k p [] | reflexivity ].
  - destruct (touches p0 c) eqn:Ht.
    + split; [ discriminate | ].
      intros H. specialize (H k0 p0 (or_introl eq_refl)). congruence.
    + split.
      * intros H k p [Heq | Hin].
        -- injection Heq as <- <-. exact Ht.
        -- destruct (firstToucher rest c); [ discriminate | ].
           apply (proj1 IH eq_refl k p Hin).
      * intros H.
        assert (Hrest : firstToucher rest c = None)
          by (apply IH; intros k p Hin; apply (H k p); right; exact Hin).
        rewrite Hrest. reflexivity.
Qed.

(** C8: after the scan the coins left are exactly those no player touches;
    every touched coin is scored once, by the first player in scan order that
    touches it: each player's score grows by the number of coins it is the
    first to touch, and the scores grow in total by the number of coins
    removed. *)
Theorem C8_coin_taken_once_by_first_toucher
    (ps : Obj.t Player.t) (cs : Obj.t Coin.t) :
  (forall p c,
      touches p c = true <->
      (Player.x p - Coin.x c) * (Player.x p - Coin.x c)
      + (Player.y p - Coin.y c) * (Player.y p - Coin.y c)
      <= (PLAYER_R + COIN_R) * (PLAYER_R + COIN_R)) /\
  snd (coinPhase ps cs) = filter (unclaimed ps) cs /\
  Obj.keys (fst (coinPhase ps cs)) = Obj.keys ps /\
  (forall i k p,
      nth_error ps i = Some (k, p) ->
      nth_error (fst (coinPhase ps cs)) i =
        Some (k, Player.setScore p
                   (Player.score p
                    + Z.of_nat (List.length (filter (claimedBy ps i) cs)))%Z)) /\
  (forall kc,
      unclaimed ps kc = true <->
      (forall k p, In (k, p) ps -> touches p (snd kc) = false)) /\
  (forall i kc,
      claimedBy ps i kc = true <->
      (exists k p, nth_error ps i = Some (k, p) /\ touches p (snd kc) = true) /\
      (forall j k p, (j < i)%nat -> nth_error ps j = Some (k, p) ->
                     touches p (snd kc) = false)) /\
  (forall i j kc,
      claimedBy ps i kc = true -> claimedBy ps j kc = true -> i = j) /\
  (totalScore (fst (coinPhase ps cs))
   = totalScore ps
     + (Z.of_nat (List.length cs)
        - Z.of_nat (List.length (snd (coinPhase ps cs)))))%Z.
Proof.
  split; [ apply touches_iff | ].
  split; [ apply coinPhase_coins | ].
  split; [ apply coinPhase_keys | ].
  split; [ intros i k p; apply coinPhase_players | ].
  split; [ | split; [ | split; [ | apply coinPhase_total ] ] ].
  - intros kc. unfold unclaimed.
    rewrite <- firstToucher_none.
    destruct (firstToucher ps (snd kc)); split; congruence.
  - intros i kc. unfold claimedBy.
    rewrite <- firstToucher_spec.
    destruct (firstToucher ps (snd kc)) as [n |]; split.
    + intros H. apply Nat.eqb_eq in H. congruence.
    + intros H. injection H as ->. apply Nat.eqb_refl.
    + discriminate.
    + discriminate.
  - intros i j kc. unfold claimedBy.
    destruct (firstToucher ps (snd kc)) as [n |]; [ | discriminate ].
    intros Hi Hj. apply Nat.eqb_eq in Hi, Hj. congruence.
Qed.

(** ** C9: the broadcast *)

Section BroadcastClaims.

Variable JSON_stringify : OutMsg -> string.

Lemma broadcastState_timers (now : Z) (players : Obj.t Player.t)
    (coins : Obj.t Coin.t) (clients : list WS.t) :
  forall timers : list Timer.t,
    broadcastState JSON_stringify now players coins clients timers =
      timers
      ++ map (fun ws =>
                Timer.mk (now + SIM_LATENCY_MS)%Z ws
                         (JSON_stringify (SnapshotMsg (snapshotOf now players coins))))
             clients.
Proof.
  unfold broadcastState.
  induction clients as [| ws rest IH]; intros timers; cbn [fold_left map].
  - rewrite app_nil_r. reflexivity.
  - rewrite IH. unfold sendWithLatency. rewrite <- app_assoc. reflexivity.
Qed.

Lemma runTimers_sent (t : Z) (readyState : WS.t -> ReadyState)
    (timers : list Timer.t) (ws : WS.t) (m : string) :
  In (ws, m) (fst (runTimers t readyState timers)) <->
  exists tm,
    In tm timers /\ (Timer.due tm <= t)%Z /\
    readyState (Timer.target tm) = OPEN /\
    ws = Timer.target tm /\ m = Timer.payload tm.
Proof.
  induction timers as [| tm rest IH]; cbn [runTimers].
  - cbn [fst]. split; [ intros [] | intros [tm [[] _]] ].
  - destruct (runTimers t readyState rest) as [sent pending]. cbn [fst] in IH.
    destruct (Timer.due tm <=? t)%Z eqn:Hdue; cbn [fst].
    + apply Z.leb_le in Hdue. rewrite in_app_iff, IH. unfold timerCallback.
      split.
      * intros [Hnow | [tm' [Hin Hrest]]].
        -- destruct (readyState (Timer.target tm)) eqn:Hrs; cbn [isOpen] in Hnow;
             try contradiction.
           destruct Hnow as [Heq | []]. injection Heq as <- <-.
           exists tm. repeat split; try assumption. left; reflexivity.
        -- exists tm'. split; [ right; exact Hin | exact Hrest ].
      * intros [tm' [[<- | Hin] [Hd [Hrs [-> ->]]]]].
        -- left. rewrite Hrs. left; reflexivity.
        -- right. exists tm'. repeat split; assumption.
    + apply Z.leb_gt in Hdue. rewrite IH. split.
      * intros [tm' [Hin Hrest]]. exists tm'. split; [ right; exact Hin | exact Hrest ].
      * intros [tm' [[<- | Hin] [Hd Hrest]]]; [ lia | ].
        exists tm'. split; [ exact Hin | split; [ exact Hd | exact Hrest ] ].
Qed.

(** C9: a broadcast at time [T] serialises one snapshot (the time, every
    player's id, position and score, every coin's id and position) and arms
    one timer per connected socket, each for [T + SIM_LATENCY_MS] and each
    carrying that same text; whenever the timers are run, a socket is sent
    the text only if the time has reached [T + SIM_LATENCY_MS] and the
    socket is open, and a socket that is not open then is sent nothing. *)
Theorem C9_broadcast_is_delayed_and_uniform
    (T t : Z) (players : Obj.t Player.t) (coins : Obj.t Coin.t)
    (clients : list WS.t) (readyState : WS.t -> ReadyState) :
  let snap := snapshotOf T players coins in
  let s := JSON_stringify (SnapshotMsg snap) in
  let armed := broadcastState JSON_stringify T players coins clients [] in
  Snapshot.time snap = T /\
  Snapshot.players snap =
    map (fun p => PlayerView.mk (Player.id p) (Player.x p) (Player.y p)
                                (Player.score p))
        (Obj.values players) /\
  Snapshot.coins snap =
    map (fun c => CoinView.mk (Coin.id c) (Coin.x c) (Coin.y c))
        (Obj.values coins) /\
  armed = map (fun ws => Timer.mk (T + SIM_LATENCY_MS)%Z ws s) clients /\
  (forall ws m,
      In (ws, m) (fst (runTimers t readyState armed)) <->
      In ws clients /\ (T + SIM_LATENCY_MS <= t)%Z /\
      readyState ws = OPEN /\ m = s) /\
  (forall ws m,
      readyState ws <> OPEN ->
      ~ In (ws, m) (fst (runTimers t readyState armed))).
Proof.
  intros snap s armed.
  assert (Harmed : armed = map (fun ws => Timer.mk (T + SIM_LATENCY_MS)%Z ws s)
                               clients)
    by (unfold armed; rewrite broadcastState_timers; reflexivity).
  assert (Hsent : forall ws m,
             In (ws, m) (fst (runTimers t readyState armed)) <->
             In ws clients /\ (T + SIM_LATENCY_MS <= t)%Z /\
             readyState ws = OPEN /\ m = s).
  { intros ws m. rewrite runTimers_sent, Harmed. split.
    - intros [tm [Hin [Hd [Hrs [-> ->]]]]].
      apply in_map_iff in Hin. destruct Hin as [ws' [<- Hin]].
      cbn [Timer.due Timer.target Timer.payload] in *.
      repeat split; assumption.
    - intros [Hin [Hd [Hrs ->]]].
      exists (Timer.mk (T + SIM_LATENCY_MS)%Z ws s).
      cbn [Timer.due Timer.target Timer.payload].
      repeat split; try assumption.
      apply in_map_iff. exists ws. split; [ reflexivity | exact Hin ]. }
  repeat (split; [ reflexivity | ]).
  split; [ exact Harmed | ]. split; [ exact Hsent | ].
  intros ws m Hclosed Hin. apply Hsent in Hin. tauto.
Qed.

End BroadcastClaims.

(** ** The loop as a whole *)

Lemma coinPhase_coins_length (ps : Obj.t Player.t) (cs : Obj.t Coin.t) :
  (List.length (snd (coinPhase ps cs)) <= List.length cs)%nat.
Proof. rewrite coinPhase_coins. apply filter_length_le. Qed.

Lemma spawnStep_coins_length (tCheck tReset : Z) (rx ry : R)
    (cs : Obj.t Coin.t) (next last : Z) :
  (List.length cs <= MAX_COINS)%nat ->
  (List.length (fst (fst (spawnStep tCheck tReset rx ry (cs, next, last)))) <= MAX_COINS)%nat.
Proof.
  intros Hcap. unfold spawnStep.
  destruct (COIN_SPAWN_INTERVAL <? tCheck - last)%Z; [ | exact Hcap ].
  destruct (List.length (Obj.keys cs) <? MAX_COINS)%nat eqn:Hroom; [ | exact Hcap ].
  apply Nat.ltb_lt in Hroom. unfold Obj.keys in Hroom. rewrite length_map in Hroom.
  cbn [spawnCoin fst].
  pose proof (length_set next
                (Coin.mk next (rx * (MAP_W - 40) + 20) (ry * (MAP_H - 40) + 20))
                cs) as Hlen.
  lia.
Qed.

Section LoopClaims.

Variable JSON_parse : string -> option JSValue.
Variable JSON_stringify : OutMsg -> string.

Lemma tick_coins (e : Tick.env) (w : World.t) :
  World.coins (tick JSON_parse JSON_stringify e w) =
    fst (fst (spawnStep (Tick.tSpawnCheck e) (Tick.tSpawnReset e)
                        (Tick.randX e) (Tick.randY e)
                        (snd (physics
                                (fst (processInboundQueue JSON_parse
                                        (Tick.tDrain e) (Tick.tHandle e)
                                        (World.players w) (World.inboundQueue w)))
                                (World.coins w)),
                         World.nextCoinId w, World.lastSpawn w))).
Proof.
  unfold tick.
  destruct (processInboundQueue _ _ _ _ _) as [ps1 q1].
  destruct (physics _ _) as [ps2 cs2]. cbn [fst snd].
  destruct (spawnStep _ _ _ _ _) as [[cs3 next3] last3].
  reflexivity.
Qed.

(** A firing of the loop never takes the number of coins above the cap. *)
Lemma tick_coins_capped (e : Tick.env) (w : World.t) :
  (List.length (World.coins w) <= MAX_COINS)%nat ->
  (List.length (World.coins (tick JSON_parse JSON_stringify e w)) <= MAX_COINS)%nat.
Proof.
  intros Hcap. rewrite tick_coins. apply spawnStep_coins_length.
  unfold physics. etransitivity; [ apply coinPhase_coins_length | exact Hcap ].
Qed.

End LoopClaims.

(** ** Who gives way in a resolution *)

(** In the pair [(p1, p2)] the first player is moved by the share
    [(score p1 + 1) / total] of the overlap and the second by the share
    [score p2 / total]: the player with the larger score is never the one
    that is moved less. *)
Lemma resolvePair_shares (p1 p2 : Player.t) :
  (0 <= Player.score p1)%Z -> (0 <= Player.score p2)%Z ->
  0 < distance p1 p2 < 2 * PLAYER_R ->
  let q1 := fst (resolvePair p1 p2) in
  let q2 := snd (resolvePair p1 p2) in
  ((Player.score p2 < Player.score p1)%Z -> distance p2 q2 < distance p1 q1) /\
  ((Player.score p1 < Player.score p2)%Z -> distance p1 q1 <= distance p2 q2).
Proof.
  intros H1 H2 Hd q1 q2.
  pose proof (dominanceRatio_range _ _ H1 H2) as Hr.
  assert (Hr' : 0 <= dominanceRatio (Player.score p1) (Player.score p2) <= 1)
    by lra.
  destruct (resolvePair_displacement p1 p2 Hd Hr') as [D1 [D2 _]].
  fold q1 q2 in D1, D2. rewrite D1, D2.
  set (o := 2 * PLAYER_R - distance p1 p2). assert (Ho : 0 < o) by (unfold o; lra).
  unfold dominanceRatio in *.
  set (s1 := Player.score p1) in *. set (s2 := Player.score p2) in *.
  assert (Ht : 0 < IZR (s1 + s2 + 1)) by (apply IZR_lt; lia).
  assert (Hone : 1 - IZR s2 / IZR (s1 + s2 + 1)
                 = IZR (s1 + 1) / IZR (s1 + s2 + 1)).
  { replace (s1 + s2 + 1)%Z with (s2 + (s1 + 1))%Z by lia.
    rewrite (plus_IZR s2 (s1 + 1)). field.
    rewrite <- plus_IZR. apply not_0_IZR. lia. }
  rewrite Hone. unfold Rdiv.
  assert (Hinv : 0 < / IZR (s1 + s2 + 1)) by (apply Rinv_0_lt_compat; exact Ht).
  split; intros Hlt.
  - apply Rmult_lt_compat_l; [ exact Ho | ].
    apply Rmult_lt_compat_r; [ exact Hinv | ]. apply IZR_lt. lia.
  - apply Rmult_le_compat_l; [ lra | ].
    apply Rmult_le_compat_r; [ lra | ]. apply IZR_le. lia.
Qed.

(** ** Connections come and go *)

Lemma get_delete {V : Type} (k : Z) (o : list (Z * V)) :
  Obj.get k (Obj.delete k o) = None.
Proof.
  unfold Obj.delete. induction o as [| [k0 v0] rest IH]; cbn [filter fst].
  - reflexivity.
  - destruct (k0 =? k)%Z eqn:E; cbn [negb Obj.get]; [ exact IH | ].
    rewrite Z.eqb_sym, E. exact IH.
Qed.

Section ConnectionFacts.

Variable JSON_parse : string -> option JSValue.
Variable JSON_stringify : OutMsg -> string.

(** Once a socket has closed, its player is gone from the registry, and
    whatever it still has in the queue is thrown away by the drain. *)
Lemma onClose_forgets_player (now : Z) (ws : WS.t) (clients : list WS.t)
    (w : World.t) :
  knownPlayer (World.players (onClose JSON_stringify now ws clients w)) ws = false.
Proof.
  unfold onClose, knownPlayer. cbn [World.players].
  destruct (WS.playerId ws) as [pid |]; [ | reflexivity ].
  rewrite get_delete. apply andb_false_r.
Qed.

Lemma onClose_discards_late_messages (now t : Z) (ws : WS.t) (raw : string)
    (clients : list WS.t) (w : World.t) :
  discarded JSON_parse (World.players (onClose JSON_stringify now ws clients w))
            (Envelope.mk t ws raw).
Proof. right. apply onClose_forgets_player. Qed.

(** A socket that has just connected carries the id of its new player. *)
Lemma onConnection_registers_player (h : nat) (rx ry : R) (t1 t2 : Z)
    (clients : list WS.t) (w : World.t) :
  World.nextPlayerId w <> 0%Z ->
  let r := onConnection JSON_stringify h rx ry t1 t2 clients w in
  knownPlayer (World.players (snd r)) (fst r) = true.
Proof.
  intros Hid. cbv zeta. unfold onConnection, knownPlayer.
  cbn [fst snd World.players WS.playerId].
  rewrite get_set, Z.eqb_refl.
  replace (World.nextPlayerId w =? 0)%Z with false
    by (symmetry; apply Z.eqb_neq; exact Hid).
  reflexivity.
Qed.

End ConnectionFacts.

(** * Further properties of the loop *)

(** ** Movement *)

(** X1: whatever the positions were, once the movement phase is over every
    player stands on the map. *)
Theorem X1_movement_phase_puts_players_on_map
    (ps : Obj.t Player.t) (k : Z) (p : Player.t) :
  Obj.keys (movePlayers ps) = Obj.keys ps /\
  (In (k, p) (movePlayers ps) ->
   PLAYER_R <= Player.x p <= MAP_W - PLAYER_R /\
   PLAYER_R <= Player.y p <= MAP_H - PLAYER_R).
Proof.
  split.
  - unfold movePlayers, Obj.keys. rewrite map_map. reflexivity.
  - intros Hin. unfold movePlayers in Hin. apply in_map_iff in Hin.
    destruct Hin as [kv [Heq _]]. injection Heq as _ <-.
    apply movePlayer_inBounds.
Qed.

Lemma axis_values (neg pos : JSValue) :
  axis neg pos = (-1)%Z \/ axis neg pos = 0%Z \/ axis neg pos = 1%Z.
Proof. unfold axis. destruct (truthy neg), (truthy pos); cbn; auto. Qed.

Lemma axis_zero (neg pos : JSValue) :
  axis neg pos = 0%Z <-> truthy neg = truthy pos.
Proof.
  unfold axis. destruct (truthy neg), (truthy pos); cbn; split;
    intros H; try reflexivity; discriminate.
Qed.

Lemma axis_left_only (neg pos : JSValue) :
  truthy neg = true -> truthy pos = false -> axis neg pos = (-1)%Z.
Proof. intros Hn Hp. unfold axis. rewrite Hn, Hp. reflexivity. Qed.

Lemma axis_right_only (neg pos : JSValue) :
  truthy neg = false -> truthy pos = true -> axis neg pos = 1%Z.
Proof. intros Hn Hp. unfold axis. rewrite Hn, Hp. reflexivity. Qed.

(** X2: the keys push the player the way they say: with a positive
    multiplier, [left] alone takes x down and [right] alone takes it up,
    [up] alone takes y down and [down] alone takes it up, and an axis whose
    two keys agree is not moved along; the clamp is then applied to the
    point reached. *)
Theorem X2_keys_push_in_their_direction (p : Player.t) :
  moving p = true ->
  0 < speedFactor p ->
  let inp := Player.input p in
  let l := truthy (Input.left inp) in
  let r := truthy (Input.right inp) in
  let u := truthy (Input.up inp) in
  let d := truthy (Input.down inp) in
  (l = true -> r = false -> fst (advanced p) < Player.x p) /\
  (l = false -> r = true -> Player.x p < fst (advanced p)) /\
  (l = r -> fst (advanced p) = Player.x p) /\
  (u = true -> d = false -> snd (advanced p) < Player.y p) /\
  (u = false -> d = true -> Player.y p < snd (advanced p)) /\
  (u = d -> snd (advanced p) = Player.y p) /\
  Player.x (movePlayer p) = clamp PLAYER_R (MAP_W - PLAYER_R) (fst (advanced p)) /\
  Player.y (movePlayer p) = clamp PLAYER_R (MAP_H - PLAYER_R) (snd (advanced p)).
Proof.
  intros Hmove Hf inp l r u d.
  assert (Hshape : Player.x (movePlayer p)
                     = clamp PLAYER_R (MAP_W - PLAYER_R) (fst (advanced p)) /\
                   Player.y (movePlayer p)
                     = clamp PLAYER_R (MAP_H - PLAYER_R) (snd (advanced p)))
    by (rewrite movePlayer_cases, Hmove; split; reflexivity).
  subst inp l r u d.
  unfold moving in Hmove.
  set (vx := axis (Input.left (Player.input p)) (Input.right (Player.input p))) in *.
  set (vy := axis (Input.up (Player.input p)) (Input.down (Player.input p))) in *.
  assert (Hpos : (0 < vx * vx + vy * vy)%Z).
  { apply orb_true_iff in Hmove.
    destruct Hmove as [H | H]; apply negb_true_iff, Z.eqb_neq in H; nia. }
  assert (Hlen : 0 < sqrt (IZR (vx * vx + vy * vy)))
    by (apply sqrt_lt_R0; apply IZR_lt; exact Hpos).
  set (k := / sqrt (IZR (vx * vx + vy * vy)) * PLAYER_SPEED * PHYS_DT
            * speedFactor p).
  assert (Hk : 0 < k).
  { unfold k. apply Rmult_lt_0_compat; [ | exact Hf ].
    apply Rmult_lt_0_compat; [ | unfold PHYS_DT; lra ].
    apply Rmult_lt_0_compat; [ | unfold PLAYER_SPEED; lra ].
    apply Rinv_0_lt_compat. exact Hlen. }
  assert (Hx : fst (advanced p) = Player.x p + IZR vx * k)
    by (unfold advanced, k, Rdiv; cbn [fst]; fold vx vy; ring).
  assert (Hy : snd (advanced p) = Player.y p + IZR vy * k)
    by (unfold advanced, k, Rdiv; cbn [snd]; fold vx vy; ring).
  split; [ | split; [ | split; [ | split; [ | split; [ | split;
    [ | exact Hshape ] ] ] ] ] ].
  - intros Hl Hr. rewrite Hx. unfold vx. rewrite (axis_left_only _ _ Hl Hr). lra.
  - intros Hl Hr. rewrite Hx. unfold vx. rewrite (axis_right_only _ _ Hl Hr). lra.
  - intros Hlr. rewrite Hx. unfold vx. rewrite (proj2 (axis_zero _ _) Hlr). lra.
  - intros Hu Hd. rewrite Hy. unfold vy. rewrite (axis_left_only _ _ Hu Hd). lra.
  - intros Hu Hd. rewrite Hy. unfold vy. rewrite (axis_right_only _ _ Hu Hd). lra.
  - intros Hud. rewrite Hy. unfold vy. rewrite (proj2 (axis_zero _ _) Hud). lra.
Qed.

Lemma X2_keys_push_in_their_direction_witness :
  moving walker = true /\
  0 < speedFactor walker /\
  fst (advanced walker) < Player.x walker /\
  snd (advanced walker) = Player.y walker.
Proof.
  assert (Hf : 0 < speedFactor walker) by (cbn; lra).
  pose proof (X2_keys_push_in_their_direction walker eq_refl Hf) as H.
  cbv zeta in H.
  split; [ reflexivity | ]. split; [ exact Hf | ].
  split; [ apply H; reflexivity | apply H; reflexivity ].
Defined.

(** X3: keys that cancel (none pressed, or both of a pair) give no
    direction: a player on the map is then left exactly as it was, its
    speed-loss multiplier included. *)
Theorem X3_cancelling_keys_leave_player_alone (p : Player.t) :
  truthy (Input.left (Player.input p)) = truthy (Input.right (Player.input p)) ->
  truthy (Input.up (Player.input p)) = truthy (Input.down (Player.input p)) ->
  PLAYER_R <= Player.x p <= MAP_W - PLAYER_R ->
  PLAYER_R <= Player.y p <= MAP_H - PLAYER_R ->
  movePlayer p = p.
Proof.
  intros Hlr Hud Hx Hy. apply movePlayer_idle; [ | split; assumption ].
  unfold moving. apply axis_zero in Hlr, Hud. rewrite Hlr, Hud. reflexivity.
Qed.

Lemma X3_cancelling_keys_leave_player_alone_witness : movePlayer bumped = bumped.
Proof.
  apply (X3_cancelling_keys_leave_player_alone bumped);
    try reflexivity;
    cbn [bumped Player.x Player.y]; unfold PLAYER_R, MAP_W, MAP_H; lra.
Defined.

(** ** Player against player *)

(** X4: a pair whose centres coincide, or are at least two radii apart, is
    left untouched: no displacement and no speed loss. *)
Theorem X4_no_resolution_when_apart_or_coincident (p1 p2 : Player.t) :
  distance p1 p2 = 0 \/ 2 * PLAYER_R <= distance p1 p2 ->
  resolvePair p1 p2 = (p1, p2).
Proof.
  intros H. apply resolvePair_apart. intros [Hpos Hlt].
  destruct H as [H | H]; lra.
Qed.

Lemma distance_same_place (p q : Player.t) :
  Player.x q = Player.x p -> Player.y q = Player.y p -> distance p q = 0.
Proof.
  intros Hx Hy. unfold distance. rewrite Hx, Hy.
  replace ((Player.x p - Player.x p) * (Player.x p - Player.x p)
           + (Player.y p - Player.y p) * (Player.y p - Player.y p))
    with 0 by ring.
  apply sqrt_0.
Qed.

Lemma X4_no_resolution_when_apart_or_coincident_witness :
  distance bumped shadow = 0 /\ resolvePair bumped shadow = (bumped, shadow).
Proof.
  assert (Hd : distance bumped shadow = 0)
    by (apply distance_same_place; reflexivity).
  split; [ exact Hd | ].
  exact (X4_no_resolution_when_apart_or_coincident bumped shadow (or_introl Hd)).
Defined.

(** X5: in a resolution the first player of the pair is moved by the share
    [(score p1 + 1) / (score p1 + score p2 + 1)] of the overlap and the
    second by the share [score p2 / (score p1 + score p2 + 1)]; so the first
    player is moved strictly more whenever its score is at least the
    second's, and no more than the second whenever its score is smaller. *)
Theorem X5_overlap_shares (p1 p2 : Player.t) :
  (0 <= Player.score p1)%Z -> (0 <= Player.score p2)%Z ->
  0 < distance p1 p2 < 2 * PLAYER_R ->
  let overlap := 2 * PLAYER_R - distance p1 p2 in
  let total := IZR (Player.score p1 + Player.score p2 + 1) in
  let q1 := fst (resolvePair p1 p2) in
  let q2 := snd (resolvePair p1 p2) in
  distance p1 q1 = overlap * (IZR (Player.score p1 + 1) / total) /\
  distance p2 q2 = overlap * (IZR (Player.score p2) / total) /\
  ((Player.score p2 <= Player.score p1)%Z -> distance p2 q2 < distance p1 q1) /\
  ((Player.score p1 < Player.score p2)%Z -> distance p1 q1 <= distance p2 q2).
Proof.
  intros H1 H2 Hd overlap total q1 q2.
  pose proof (dominanceRatio_range _ _ H1 H2) as Hr.
  assert (Hr' : 0 <= dominanceRatio (Player.score p1) (Player.score p2) <= 1)
    by lra.
  destruct (resolvePair_displacement p1 p2 Hd Hr') as [D1 [D2 _]].
  fold q1 q2 overlap in D1, D2.
  assert (Ho : 0 < overlap) by (unfold overlap; lra).
  unfold dominanceRatio in D1, D2. fold total in D1, D2.
  assert (Ht : 0 < total) by (apply IZR_lt; lia).
  assert (Hone : 1 - IZR (Player.score p2) / total
                 = IZR (Player.score p1 + 1) / total).
  { unfold total.
    replace (Player.score p1 + Player.score p2 + 1)%Z
      with (Player.score p2 + (Player.score p1 + 1))%Z by lia.
    rewrite (plus_IZR (Player.score p2) (Player.score p1 + 1)). field.
    rewrite <- plus_IZR. apply not_0_IZR. lia. }
  rewrite Hone in D1. rewrite D1, D2.
  assert (Hinv : 0 < / total) by (apply Rinv_0_lt_compat; exact Ht).
  split; [ reflexivity | ]. split; [ reflexivity | ].
  unfold Rdiv. split; intros Hcmp.
  - apply Rmult_lt_compat_l; [ exact Ho | ].
    apply Rmult_lt_compat_r; [ exact Hinv | ]. apply IZR_lt. lia.
  - apply Rmult_le_compat_l; [ lra | ].
    apply Rmult_le_compat_r; [ lra | ]. apply IZR_le. lia.
Qed.

Lemma X5_overlap_shares_witness :
  0 < distance (playerA 3) (playerB 1) < 2 * PLAYER_R /\
  distance (playerB 1) (snd (resolvePair (playerA 3) (playerB 1)))
    < distance (playerA 3) (fst (resolvePair (playerA 3) (playerB 1))).
Proof.
  split; [ apply overlapping_A_B | ].
  refine (proj1 (proj2 (proj2 (X5_overlap_shares (playerA 3) (playerB 1)
                                 _ _ (overlapping_A_B 3 1)))) _);
    cbn; lia.
Defined.

Lemma map_setNth {A B : Type} (f : A -> B) (l : list A) :
  forall (i : nat) (a : A), map f (setNth i a l) = setNth i (f a) (map f l).
Proof.
  induction l as [| b l IH]; intros [| i] a; cbn [setNth map]; try reflexivity.
  rewrite IH. reflexivity.
Qed.

Lemma setNth_same {A : Type} (l : list A) :
  forall (i : nat) (a : A), nth_error l i = Some a -> setNth i a l = l.
Proof.
  induction l as [| b l IH]; intros [| i] a H; cbn in *; try discriminate.
  - injection H as ->. reflexivity.
  - rewrite (IH i a H). reflexivity.
Qed.

Lemma resolvePair_core (p1 p2 : Player.t) :
  core (fst (resolvePair p1 p2)) = core p1 /\
  core (snd (resolvePair p1 p2)) = core p2.
Proof.
  unfold resolvePair.
  destruct (Rlt_dec _ _); [ destruct (Rlt_dec _ _) | ]; split; reflexivity.
Qed.

Lemma collideAt_core (arr : list Player.t) (i j : nat) :
  map core (collideAt arr i j) = map core arr.
Proof.
  unfold collideAt.
  destruct (nth_error arr i) as [p1 |] eqn:Hi; [ | reflexivity ].
  destruct (nth_error arr j) as [p2 |] eqn:Hj; [ | reflexivity ].
  destruct (resolvePair_core p1 p2) as [C1 C2].
  destruct (resolvePair p1 p2) as [q1 q2]. cbn [fst snd] in C1, C2.
  rewrite !map_setNth, C1, C2.
  rewrite (setNth_same (map core arr) i (core p1))
    by (rewrite nth_error_map, Hi; reflexivity).
  apply setNth_same. rewrite nth_error_map, Hj. reflexivity.
Qed.

Lemma fold_left_invariant {A B C : Type} (g : A -> C) (f : A -> B -> A)
    (bs : list B) :
  (forall a b, g (f a b) = g a) -> forall a, g (fold_left f bs a) = g a.
Proof.
  intros Hf. induction bs as [| b bs IH]; intros a; cbn [fold_left].
  - reflexivity.
  - rewrite IH. apply Hf.
Qed.

Lemma collidePlayerArr_core (arr : list Player.t) :
  map core (collidePlayerArr arr) = map core arr.
Proof.
  unfold collidePlayerArr. apply (fold_left_invariant (map core)).
  intros a i. apply (fold_left_invariant (map core)).
  intros a' j. apply collideAt_core.
Qed.

Lemma values_combine {A : Type} (ks : list Z) :
  forall vs : list A,
    List.length ks = List.length vs -> Obj.values (combine ks vs) = vs.
Proof.
  unfold Obj.values.
  induction ks as [| k ks IH]; intros [| v vs] Hlen; cbn in *;
    try reflexivity; try discriminate.
  f_equal. apply IH. lia.
Qed.

Lemma values_collidePlayers (ps : Obj.t Player.t) :
  Obj.values (collidePlayers ps) = collidePlayerArr (Obj.values ps).
Proof.
  unfold collidePlayers. apply values_combine.
  rewrite length_collidePlayerArr. unfold Obj.keys, Obj.values.
  rewrite !length_map. reflexivity.
Qed.

(** X6: the player-player pass moves players and sets speed-loss
    multipliers, nothing else: it keeps the keys and their order and every
    player's id, score and stored input. *)
Theorem X6_collisions_keep_ids_scores_inputs (ps : Obj.t Player.t) :
  Obj.keys (collidePlayers ps) = Obj.keys ps /\
  map Player.id (Obj.values (collidePlayers ps)) = map Player.id (Obj.values ps) /\
  map Player.score (Obj.values (collidePlayers ps))
    = map Player.score (Obj.values ps) /\
  map Player.input (Obj.values (collidePlayers ps))
    = map Player.input (Obj.values ps).
Proof.
  split; [ apply collidePlayers_keys | ].
  rewrite values_collidePlayers.
  pose proof (collidePlayerArr_core (Obj.values ps)) as Hcore.
  repeat split.
  - apply (f_equal (map (fun c => fst (fst c)))) in Hcore.
    rewrite !map_map in Hcore. exact Hcore.
  - apply (f_equal (map (fun c => snd (fst c)))) in Hcore.
    rewrite !map_map in Hcore. exact Hcore.
  - apply (f_equal (map (fun c : Z * Z * Input.t => snd c))) in Hcore.
    rewrite !map_map in Hcore. exact Hcore.
Qed.

Lemma collideAt_noOverlap (arr : list Player.t) (i j : nat) :
  noOverlap arr -> collideAt arr i j = arr.
Proof.
  intros Hno. unfold collideAt.
  destruct (nth_error arr i) as [p1 |] eqn:Hi; [ | reflexivity ].
  destruct (nth_error arr j) as [p2 |] eqn:Hj; [ | reflexivity ].
  rewrite (resolvePair_apart p1 p2 (Hno i j p1 p2 Hi Hj)).
  rewrite (setNth_same arr i p1 Hi). apply setNth_same. exact Hj.
Qed.

Lemma fold_left_fixpoint {A B : Type} (f : A -> B -> A) (a : A) (bs : list B) :
  (forall b, f a b = a) -> fold_left f bs a = a.
Proof.
  intros Hf. induction bs as [| b bs IH]; cbn [fold_left].
  - reflexivity.
  - rewrite Hf. exact IH.
Qed.

Lemma collidePlayerArr_noOverlap (arr : list Player.t) :
  noOverlap arr -> collidePlayerArr arr = arr.
Proof.
  intros Hno. unfold collidePlayerArr. apply fold_left_fixpoint.
  intros i. apply fold_left_fixpoint. intros j. apply collideAt_noOverlap.
  exact Hno.
Qed.

Lemma combine_keys_values {V : Type} (o : list (Z * V)) :
  combine (Obj.keys o) (Obj.values o) = o.
Proof.
  unfold Obj.keys, Obj.values.
  induction o as [| [k v] o IH]; cbn [map combine fst snd]; [ reflexivity | ].
  rewrite IH. reflexivity.
Qed.

Lemma coinPhase_unscored (ps : Obj.t Player.t) :
  forall cs : Obj.t Coin.t,
    map (fun kp => (fst kp, unscored (snd kp))) (fst (coinPhase ps cs))
      = map (fun kp => (fst kp, unscored (snd kp))) ps.
Proof.
  induction ps as [| [k p] rest IH]; intros cs; cbn [coinPhase].
  - reflexivity.
  - rewrite collectCoins_spec.
    specialize (IH (filter (fun kc => negb (touches p (snd kc))) cs)).
    destruct (coinPhase rest _) as [rest' cs'']. cbn [fst map snd] in *.
    rewrite IH. reflexivity.
Qed.

(** X7: when no two players overlap once they have moved, the player-player
    pass changes nothing and every player ends the physics of the firing on
    the map. *)
Theorem X7_without_overlap_players_stay_on_map
    (ps : Obj.t Player.t) (cs : Obj.t Coin.t) (k : Z) (p : Player.t) :
  noOverlap (Obj.values (movePlayers ps)) ->
  In (k, p) (fst (physics ps cs)) ->
  collidePlayers (movePlayers ps) = movePlayers ps /\
  PLAYER_R <= Player.x p <= MAP_W - PLAYER_R /\
  PLAYER_R <= Player.y p <= MAP_H - PLAYER_R.
Proof.
  intros Hno Hin.
  assert (Hsame : collidePlayers (movePlayers ps) = movePlayers ps).
  { unfold collidePlayers. rewrite (collidePlayerArr_noOverlap _ Hno).
    apply combine_keys_values. }
  split; [ exact Hsame | ].
  unfold physics in Hin. rewrite Hsame in Hin.
  apply (in_map (fun kp => (fst kp, unscored (snd kp)))) in Hin.
  rewrite coinPhase_unscored in Hin. apply in_map_iff in Hin.
  destruct Hin as [[k' p'] [Heq Hin']]. cbn [fst snd] in Heq.
  injection Heq as _ _ Hx Hy _ _.
  pose proof (movement_phase_inBounds ps k' p' Hin') as [Bx By].
  rewrite <- Hx, <- Hy. split; assumption.
Qed.

Lemma distance_sym (p q : Player.t) : distance p q = distance q p.
Proof. unfold distance. f_equal. ring. Qed.

Lemma bystander_stays : movePlayer bystander = bystander.
Proof.
  apply movePlayer_idle; [ reflexivity | ].
  unfold inBounds, bystander, PLAYER_R, MAP_W, MAP_H. cbn [Player.x Player.y]. lra.
Qed.

Lemma X7_without_overlap_players_stay_on_map_witness :
  noOverlap (Obj.values (movePlayers [(1%Z, bumped); (2%Z, bystander)])) /\
  In (2%Z, bystander) (fst (physics [(1%Z, bumped); (2%Z, bystander)] [])) /\
  collidePlayers (movePlayers [(1%Z, bumped); (2%Z, bystander)])
    = [(1%Z, bumped); (2%Z, bystander)] /\
  PLAYER_R <= Player.x bystander <= MAP_W - PLAYER_R.
Proof.
  assert (Hmoved : movePlayers [(1%Z, bumped); (2%Z, bystander)]
                   = [(1%Z, bumped); (2%Z, bystander)]).
  { unfold movePlayers. cbn [map fst snd].
    rewrite bumped_stays, bystander_stays. reflexivity. }
  assert (Hfar : distance bumped bystander = 100)
    by (apply distance_on_a_row; cbn [bumped bystander Player.x Player.y]; lra).
  assert (Hno : noOverlap (Obj.values (movePlayers [(1%Z, bumped); (2%Z, bystander)]))).
  { rewrite Hmoved. unfold Obj.values. cbn [map snd].
    intros i j p1 p2 Hi Hj.
    destruct i as [| [| i]]; cbn [nth_error] in Hi;
      [ | | destruct i; discriminate ];
      injection Hi as <-;
      (destruct j as [| [| j]]; cbn [nth_error] in Hj;
       [ | | destruct j; discriminate ]);
      injection Hj as <-.
    - rewrite (distance_same_place bumped bumped eq_refl eq_refl). lra.
    - rewrite Hfar. unfold PLAYER_R. lra.
    - rewrite distance_sym, Hfar. unfold PLAYER_R. lra.
    - rewrite (distance_same_place bystander bystander eq_refl eq_refl). lra. }
  assert (Hpass : collidePlayers [(1%Z, bumped); (2%Z, bystander)]
                  = [(1%Z, bumped); (2%Z, bystander)]).
  { unfold collidePlayers, Obj.keys, Obj.values. cbn [map fst snd].
    rewrite collidePlayerArr_two.
    rewrite (resolvePair_apart bumped bystander)
      by (rewrite Hfar; unfold PLAYER_R; lra).
    reflexivity. }
  assert (Hin : In (2%Z, bystander)
                   (fst (physics [(1%Z, bumped); (2%Z, bystander)] []))).
  { unfold physics. rewrite coinPhase_no_coins, Hmoved, Hpass. cbn [fst].
    right. left. reflexivity. }
  pose proof (X7_without_overlap_players_stay_on_map
                [(1%Z, bumped); (2%Z, bystander)] [] 2 bystander Hno Hin)
    as [Hsame [Hx _]].
  rewrite Hmoved in Hsame.
  split; [ exact Hno | ]. split; [ exact Hin | ].
  split; [ rewrite Hmoved; exact Hsame | exact Hx ].
Defined.

(** ** Client messages *)

Lemma handleMsg_result (now : Z) (ws : WS.t) (msg : JSValue)
    (players players' : Obj.t Player.t) :
  handleMsg now ws msg players = Returned players' ->
  players' = players \/
  exists pid player inp,
    WS.playerId ws = Some pid /\
    Obj.get pid players = Some player /\
    players' = Obj.set pid (Player.setInput player inp) players.
Proof.
  unfold handleMsg. intros H.
  destruct (WS.playerId ws) as [pid |]; [ | injection H as <-; left; reflexivity ].
  destruct (pid =? 0)%Z; [ injection H as <-; left; reflexivity | ].
  destruct (Obj.get pid players) as [player |] eqn:Hget;
    [ | injection H as <-; left; reflexivity ].
  destruct (readProp msg "type") as [ty |]; cbn [bind] in H; [ | discriminate ].
  destruct (isInputTag ty); [ | injection H as <-; left; reflexivity ].
  repeat match type of H with
         | bind ?m _ = _ => destruct m; cbn [bind] in H; [ | discriminate ]
         end.
  injection H as <-. right. eexists pid, player, _.
  repeat split. exact Hget.
Qed.

Lemma processEnvelope_result (JSON_parse : string -> option JSValue)
    (t : Z) (e : Envelope.t) (players : Obj.t Player.t) :
  processEnvelope JSON_parse t e players = players \/
  exists pid player inp,
    WS.playerId (Envelope.ws e) = Some pid /\
    Obj.get pid players = Some player /\
    processEnvelope JSON_parse t e players
      = Obj.set pid (Player.setInput player inp) players.
Proof.
  unfold processEnvelope.
  destruct (JSON_parse (Envelope.raw e)) as [msg |]; cbn [bind];
    [ | left; reflexivity ].
  destruct (handleMsg t (Envelope.ws e) msg players) as [players' |] eqn:H;
    [ | left; reflexivity ].
  destruct (handleMsg_result _ _ _ _ _ H) as [-> | Hset];
    [ left; reflexivity | right; exact Hset ].
Qed.

Lemma processEnvelope_lookup (JSON_parse : string -> option JSValue)
    (t : Z) (e : Envelope.t) (players : Obj.t Player.t) (k : Z) :
  option_map body (Obj.get k (processEnvelope JSON_parse t e players))
    = option_map body (Obj.get k players) /\
  (WS.playerId (Envelope.ws e) <> Some k ->
   Obj.get k (processEnvelope JSON_parse t e players) = Obj.get k players).
Proof.
  destruct (processEnvelope_result JSON_parse t e players)
    as [-> | [pid [player [inp [Hws [Hget ->]]]]]].
  - split; reflexivity.
  - rewrite get_set. destruct (k =? pid)%Z eqn:E.
    + apply Z.eqb_eq in E. subst k. rewrite Hget. split; [ reflexivity | ].
      intros Hne. contradiction.
    + split; reflexivity.
Qed.

(** X8: whatever a client sends, handling it can only replace the stored
    input of the sender's own player: every player keeps its id, position,
    score and speed-loss multiplier, no player appears or disappears, and the
    players of other sockets are not touched at all.  The same holds for a
    whole drain of the queue. *)
Theorem X8_message_changes_only_the_stored_input
    (JSON_parse : string -> option JSValue) (now t : Z) (clock : nat -> Z)
    (e : Envelope.t) (q : list Envelope.t) (players : Obj.t Player.t) (k : Z) :
  option_map body (Obj.get k (processEnvelope JSON_parse t e players))
    = option_map body (Obj.get k players) /\
  (WS.playerId (Envelope.ws e) <> Some k ->
   Obj.get k (processEnvelope JSON_parse t e players) = Obj.get k players) /\
  option_map body (Obj.get k (fst (processInboundQueue JSON_parse now clock players q)))
    = option_map body (Obj.get k players).
Proof.
  split; [ apply processEnvelope_lookup | ].
  split; [ apply processEnvelope_lookup | ].
  rewrite processInboundQueue_spec. cbn [fst].
  generalize 0%nat as iter. revert players.
  induction q as [| e' q IH]; intros players iter; cbn [applyReady].
  - reflexivity.
  - rewrite IH. destruct (ready now e'); [ | reflexivity ].
    apply processEnvelope_lookup.
Qed.

(** ** The inbound queue, continued *)

Section DrainMore.

Variable JSON_parse : string -> option JSValue.

(** X9: a message enqueued at [T] is handled by the first drain whose clock
    reading has reached [T + SIM_LATENCY_MS]: after every envelope that was
    queued before it, and it is removed from the queue. *)
Theorem X9_message_is_handled_once_its_delay_has_passed
    (now T : Z) (clock : nat -> Z) (ws : WS.t) (raw : string)
    (players : Obj.t Player.t) (q : list Envelope.t) :
  (T + SIM_LATENCY_MS <= now)%Z ->
  processInboundQueue JSON_parse now clock players (queueInbound T ws raw q) =
    (processEnvelope JSON_parse (clock (List.length q))
       (Envelope.mk (T + SIM_LATENCY_MS)%Z ws raw)
       (fst (processInboundQueue JSON_parse now clock players q)),
     snd (processInboundQueue JSON_parse now clock players q)).
Proof.
  intros Hdue. rewrite !processInboundQueue_spec. cbn [fst snd].
  unfold queueInbound. rewrite applyReady_app, filter_app.
  cbn [applyReady filter Nat.add]. unfold waiting, ready.
  cbn [Envelope.processAt].
  replace (T + SIM_LATENCY_MS <=? now)%Z with true
    by (symmetry; apply Z.leb_le; exact Hdue).
  cbn [negb]. rewrite app_nil_r. reflexivity.
Qed.

Lemma applyReady_nothing_ready (now : Z) (clock : nat -> Z) (q : list Envelope.t) :
  Forall (fun e => ready now e = false) q ->
  forall (iter : nat) (players : Obj.t Player.t),
    applyReady JSON_parse now clock iter q players = players.
Proof.
  induction 1 as [| e q He _ IH]; intros iter players; cbn [applyReady].
  - reflexivity.
  - rewrite He. apply IH.
Qed.

(** X10: a drain leaves nothing behind that is ready: a second drain whose
    clock reading is not later than the first one's changes neither the
    registry nor the queue. *)
Theorem X10_second_drain_finds_nothing
    (now now' : Z) (clock clock' : nat -> Z)
    (players players' : Obj.t Player.t) (q : list Envelope.t) :
  (now' <= now)%Z ->
  let left := snd (processInboundQueue JSON_parse now clock players q) in
  processInboundQueue JSON_parse now' clock' players' left = (players', left).
Proof.
  intros Hle left. unfold left. rewrite !processInboundQueue_spec. cbn [snd].
  assert (Hall : Forall (fun e => ready now' e = false) (filter (waiting now) q)).
  { apply Forall_forall. intros e He. apply filter_In in He.
    destruct He as [_ Hw]. unfold waiting, ready in *.
    apply negb_true_iff, Z.leb_gt in Hw. apply Z.leb_gt. lia. }
  rewrite (applyReady_nothing_ready _ _ _ Hall). f_equal.
  apply forallb_filter_id. apply forallb_forall. intros e He.
  rewrite Forall_forall in Hall. unfold waiting. rewrite (Hall e He). reflexivity.
Qed.

End DrainMore.

Lemma X9_message_is_handled_once_its_delay_has_passed_witness :
  (1000 + SIM_LATENCY_MS <= 1200)%Z /\
  processInboundQueue tinyParse 1200 (fun _ => 1200%Z) [(1%Z, bumped)]
      (queueInbound 1000 socket1 "oops" []) = ([(1%Z, bumped)], []).
Proof.
  split; [ unfold SIM_LATENCY_MS; lia | ].
  refine (eq_trans
            (X9_message_is_handled_once_its_delay_has_passed
               tinyParse 1200 1000 (fun _ => 1200%Z) socket1 "oops"
               [(1%Z, bumped)] [] _) _).
  - unfold SIM_LATENCY_MS. lia.
  - reflexivity.
Defined.

Lemma X10_second_drain_finds_nothing_witness :
  (1100 <= 1100)%Z /\
  processInboundQueue tinyParse 1100 (fun _ => 1100%Z) [(1%Z, bumped)]
      (snd (processInboundQueue tinyParse 1100 (fun _ => 1100%Z) []
              (queueInbound 1000 socket1 "{}" [garbled])))
    = ([(1%Z, bumped)], [Envelope.mk 1200 socket1 "{}"]).
Proof.
  split; [ lia | ].
  refine (eq_trans
            (X10_second_drain_finds_nothing
               tinyParse 1100 1100 (fun _ => 1100%Z) (fun _ => 1100%Z)
               [] [(1%Z, bumped)] (queueInbound 1000 socket1 "{}" [garbled]) _) _).
  - lia.
  - reflexivity.
Defined.

(** ** Registries: order, fresh ids, own ids *)

Lemma get_in_keys {V : Type} (k : Z) (v : V) (o : list (Z * V)) :
  Obj.get k o = Some v -> In k (Obj.keys o).
Proof.
  induction o as [| [k0 v0] rest IH]; cbn [Obj.get Obj.keys map fst].
  - discriminate.
  - destruct (k =? k0)%Z eqn:E.
    + intros _. left. symmetry. apply Z.eqb_eq. exact E.
    + intros H. right. apply IH. exact H.
Qed.

(** Writing under a key that is there replaces the value where it stands. *)
Lemma set_existing {V B : Type} (g : V -> B) (k : Z) (v v' : V)
    (o : list (Z * V)) :
  ascending (Obj.keys o) -> Obj.get k o = Some v -> g v' = g v ->
  Obj.keys (Obj.set k v' o) = Obj.keys o /\
  map g (Obj.values (Obj.set k v' o)) = map g (Obj.values o).
Proof.
  intros Hasc Hget Hg. unfold Obj.keys, Obj.values in *.
  induction o as [| [k0 v0] rest IH]; cbn [Obj.get Obj.set map fst snd] in *.
  - discriminate.
  - destruct Hasc as [Hlt Hasc]. destruct (k =? k0)%Z eqn:E.
    + apply Z.eqb_eq in E. subst k0. injection Hget as ->.
      cbn [map fst snd]. rewrite Hg. split; reflexivity.
    + assert (Hin : In k (map fst rest)) by (eapply get_in_keys; exact Hget).
      rewrite Forall_forall in Hlt. specialize (Hlt k Hin).
      replace (k <? k0)%Z with false by (symmetry; apply Z.ltb_ge; lia).
      cbn [map fst snd]. destruct (IH Hasc Hget) as [IHk IHv].
      rewrite IHk, IHv. split; reflexivity.
Qed.

(** Writing under a key larger than all the others adds it at the end. *)
Lemma set_fresh {V : Type} (k : Z) (v : V) (o : list (Z * V)) :
  idsBelow k (Obj.keys o) -> Obj.set k v o = o ++ [(k, v)].
Proof.
  unfold idsBelow, Obj.keys.
  induction o as [| [k0 v0] rest IH]; intros Hbelow; cbn [Obj.set app].
  - reflexivity.
  - cbn [map fst] in Hbelow. inversion Hbelow as [| ? ? Hk0 Hrest]; subst.
    replace (k =? k0)%Z with false by (symmetry; apply Z.eqb_neq; lia).
    replace (k <? k0)%Z with false by (symmetry; apply Z.ltb_ge; lia).
    rewrite (IH Hrest). reflexivity.
Qed.

Lemma ascending_snoc (ks : list Z) (k : Z) :
  ascending ks -> idsBelow k ks -> ascending (ks ++ [k]).
Proof.
  unfold idsBelow. induction ks as [| k0 ks IH]; intros Hasc Hbelow; cbn [app ascending].
  - split; [ constructor | exact I ].
  - destruct Hasc as [Hlt Hasc]. inversion Hbelow as [| ? ? Hk0 Hrest]; subst.
    split.
    + apply Forall_app. split; [ exact Hlt | ]. constructor; [ exact Hk0 | constructor ].
    + apply IH; assumption.
Qed.

Lemma ascending_filter {V : Type} (f : Z * V -> bool) (o : list (Z * V)) :
  ascending (Obj.keys o) -> ascending (Obj.keys (filter f o)).
Proof.
  unfold Obj.keys.
  induction o as [| [k0 v0] rest IH]; intros Hasc; cbn [filter map fst ascending] in *.
  - exact I.
  - destruct Hasc as [Hlt Hasc]. specialize (IH Hasc).
    destruct (f (k0, v0)); [ | exact IH ].
    cbn [map fst ascending]. split; [ | exact IH ].
    apply Forall_forall. intros k Hin. rewrite Forall_forall in Hlt. apply Hlt.
    apply in_map_iff in Hin. destruct Hin as [kv [<- Hin]].
    apply filter_In in Hin. apply in_map. apply Hin.
Qed.

Lemma ascending_not_in (k : Z) (ks : list Z) : idsBelow k ks -> ~ In k ks.
Proof.
  unfold idsBelow. intros Hbelow Hin. rewrite Forall_forall in Hbelow.
  specialize (Hbelow k Hin). lia.
Qed.

Lemma keys_filter_Forall {V : Type} (P : Z -> Prop) (f : Z * V -> bool)
    (o : list (Z * V)) :
  Forall P (Obj.keys o) -> Forall P (Obj.keys (filter f o)).
Proof.
  unfold Obj.keys. rewrite !Forall_forall. intros H k Hin. apply H.
  apply in_map_iff in Hin. destruct Hin as [kv [<- Hin]].
  apply filter_In in Hin. apply in_map. apply Hin.
Qed.

Lemma ownIds_iff {V : Type} (f : V -> Z) (o : list (Z * V)) :
  map f (Obj.values o) = Obj.keys o <-> Forall (fun kv => f (snd kv) = fst kv) o.
Proof.
  unfold Obj.values, Obj.keys.
  induction o as [| [k v] rest IH]; cbn [map fst snd].
  - split; [ constructor | reflexivity ].
  - split.
    + intros H. injection H as Hk Hrest. constructor; [ exact Hk | ].
      apply IH. exact Hrest.
    + intros H. inversion H as [| ? ? Hk Hrest]; subst. cbn [fst snd] in Hk.
      rewrite Hk. f_equal. apply IH. exact Hrest.
Qed.

Lemma ownIds_filter {V : Type} (f : V -> Z) (g : Z * V -> bool) (o : list (Z * V)) :
  map f (Obj.values o) = Obj.keys o ->
  map f (Obj.values (filter g o)) = Obj.keys (filter g o).
Proof.
  rewrite !ownIds_iff, !Forall_forall. intros H kv Hin.
  apply H. apply filter_In in Hin. apply Hin.
Qed.

Lemma get_delete_other {V : Type} (k k' : Z) (o : list (Z * V)) :
  k <> k' -> Obj.get k (Obj.delete k' o) = Obj.get k o.
Proof.
  intros Hne. unfold Obj.delete.
  induction o as [| [k0 v0] rest IH]; cbn [filter fst Obj.get].
  - reflexivity.
  - destruct (k0 =? k')%Z eqn:E; cbn [negb Obj.get].
    + apply Z.eqb_eq in E. subst k0.
      replace (k =? k')%Z with false by (symmetry; apply Z.eqb_neq; exact Hne).
      exact IH.
    + rewrite IH. reflexivity.
Qed.

(** ** The spawner, continued *)

(** X11: when every coin id in the registry is below the counter, as the
    counter guarantees, [spawnCoin] never overwrites a coin: the new coin
    gets an id no live coin has, goes last in enumeration order, the counter
    moves on by one, and, the draws being in [[0, 1)], the coin lies at
    least 20 pixels inside the map. *)
Theorem X11_spawned_coin_is_fresh_and_inside
    (rx ry : R) (next : Z) (cs : Obj.t Coin.t) :
  idsBelow next (Obj.keys cs) ->
  0 <= rx < 1 -> 0 <= ry < 1 ->
  let c := Coin.mk next (rx * (MAP_W - 40) + 20) (ry * (MAP_H - 40) + 20) in
  spawnCoin rx ry next cs = ((next + 1)%Z, cs ++ [(next, c)]) /\
  ~ In next (Obj.keys cs) /\
  idsBelow (next + 1) (Obj.keys (snd (spawnCoin rx ry next cs))) /\
  20 <= Coin.x c < MAP_W - 20 /\
  20 <= Coin.y c < MAP_H - 20.
Proof.
  intros Hbelow Hrx Hry c. unfold spawnCoin. fold c.
  rewrite (set_fresh next c cs Hbelow).
  split; [ reflexivity | ]. split; [ apply ascending_not_in; exact Hbelow | ].
  split.
  - cbn [snd]. unfold idsBelow, Obj.keys in *. rewrite map_app.
    apply Forall_app. split.
    + eapply Forall_impl; [ | exact Hbelow ]. cbn. intros k Hk. lia.
    + constructor; [ cbn; lia | constructor ].
  - unfold c, MAP_W, MAP_H. cbn [Coin.x Coin.y]. split; split; nra.
Qed.

Lemma X11_spawned_coin_is_fresh_and_inside_witness :
  idsBelow 2 (Obj.keys [coinAt 1 105 100]) /\
  fst (spawnCoin (1 / 2) (1 / 2) 2 [coinAt 1 105 100]) = 3%Z.
Proof.
  assert (Hb : idsBelow 2 (Obj.keys [coinAt 1 105 100]))
    by (repeat constructor).
  split; [ exact Hb | ].
  refine (f_equal fst
            (proj1 (X11_spawned_coin_is_fresh_and_inside (1 / 2) (1 / 2) 2
                      [coinAt 1 105 100] Hb _ _))); lra.
Defined.

(** ** What the handlers keep *)

Lemma movePlayer_core (p : Player.t) : core (movePlayer p) = core p.
Proof. rewrite movePlayer_cases. destruct (moving p); reflexivity. Qed.

Lemma movePlayers_shape (ps : Obj.t Player.t) :
  Obj.keys (movePlayers ps) = Obj.keys ps /\
  map core (Obj.values (movePlayers ps)) = map core (Obj.values ps).
Proof.
  unfold movePlayers, Obj.keys, Obj.values. rewrite !map_map. cbn [fst snd].
  split; [ reflexivity | ].
  apply map_ext. intros kv. apply movePlayer_core.
Qed.

Lemma coinPhase_scores (ps : Obj.t Player.t) :
  forall cs : Obj.t Coin.t,
    Forall2 Z.le (map Player.score (Obj.values ps))
                 (map Player.score (Obj.values (fst (coinPhase ps cs)))).
Proof.
  unfold Obj.values.
  induction ps as [| [k p] rest IH]; intros cs; cbn [coinPhase].
  - constructor.
  - rewrite collectCoins_spec.
    specialize (IH (filter (fun kc => negb (touches p (snd kc))) cs)).
    destruct (coinPhase rest _) as [rest' cs'']. cbn [fst map snd] in *.
    constructor; [ | exact IH ].
    cbn [Player.setScore Player.score]. lia.
Qed.

Lemma coinPhase_ids (ps : Obj.t Player.t) (cs : Obj.t Coin.t) :
  map Player.id (Obj.values (fst (coinPhase ps cs)))
    = map Player.id (Obj.values ps).
Proof.
  pose proof (coinPhase_unscored ps cs) as H.
  apply (f_equal (map (fun c : Z * (Z * R * R * Input.t * option R) =>
                         fst (fst (fst (fst (snd c))))))) in H.
  rewrite !map_map in H. cbn [fst snd unscored] in H.
  unfold Obj.values. rewrite !map_map. exact H.
Qed.

(** The physics of a firing on the player registry. *)
Lemma physics_shape (ps : Obj.t Player.t) (cs : Obj.t Coin.t) :
  Obj.keys (fst (physics ps cs)) = Obj.keys ps /\
  map Player.id (Obj.values (fst (physics ps cs))) = map Player.id (Obj.values ps) /\
  Forall2 Z.le (map Player.score (Obj.values ps))
               (map Player.score (Obj.values (fst (physics ps cs)))).
Proof.
  unfold physics.
  destruct (movePlayers_shape ps) as [Mk Mc].
  pose proof (collidePlayers_keys (movePlayers ps)) as Ck.
  pose proof (collidePlayerArr_core (Obj.values (movePlayers ps))) as Cc.
  rewrite <- values_collidePlayers, Mc in Cc.
  split; [ rewrite coinPhase_keys, Ck, Mk; reflexivity | ].
  split.
  - rewrite coinPhase_ids.
    apply (f_equal (map (fun c : Z * Z * Input.t => fst (fst c)))) in Cc.
    rewrite !map_map in Cc. exact Cc.
  - apply (f_equal (map (fun c : Z * Z * Input.t => snd (fst c)))) in Cc.
    rewrite !map_map in Cc.
    pose proof (coinPhase_scores (collidePlayers (movePlayers ps)) cs) as Hs.
    assert (E : map Player.score (Obj.values (collidePlayers (movePlayers ps)))
                = map Player.score (Obj.values ps)) by exact Cc.
    rewrite E in Hs. exact Hs.
Qed.

Section InvariantFacts.

Variable JSON_parse : string -> option JSValue.
Variable JSON_stringify : OutMsg -> string.

Lemma processEnvelope_shape (t : Z) (e : Envelope.t) (players : Obj.t Player.t) :
  ascending (Obj.keys players) ->
  Obj.keys (processEnvelope JSON_parse t e players) = Obj.keys players /\
  map body (Obj.values (processEnvelope JSON_parse t e players))
    = map body (Obj.values players).
Proof.
  intros Hasc.
  destruct (processEnvelope_result JSON_parse t e players)
    as [-> | [pid [player [inp [_ [Hget ->]]]]]].
  - split; reflexivity.
  - apply (set_existing body pid player); [ exact Hasc | exact Hget | reflexivity ].
Qed.

Lemma applyReady_shape (now : Z) (clock : nat -> Z) (q : list Envelope.t) :
  forall (iter : nat) (players : Obj.t Player.t),
    ascending (Obj.keys players) ->
    Obj.keys (applyReady JSON_parse now clock iter q players) = Obj.keys players /\
    map body (Obj.values (applyReady JSON_parse now clock iter q players))
      = map body (Obj.values players).
Proof.
  induction q as [| e q IH]; intros iter players Hasc; cbn [applyReady].
  - split; reflexivity.
  - destruct (ready now e); [ | apply IH; exact Hasc ].
    destruct (processEnvelope_shape (clock iter) e players Hasc) as [Hk Hb].
    destruct (IH (S iter) (processEnvelope JSON_parse (clock iter) e players))
      as [Hk' Hb']; [ rewrite Hk; exact Hasc | ].
    rewrite Hk', Hb', Hk, Hb. split; reflexivity.
Qed.

(** A firing of the loop, field by field. *)
Lemma tick_fields (e : Tick.env) (w : World.t) :
  let drained :=
    processInboundQueue JSON_parse (Tick.tDrain e) (Tick.tHandle e)
                        (World.players w) (World.inboundQueue w) in
  let ph := physics (fst drained) (World.coins w) in
  let sp := spawnStep (Tick.tSpawnCheck e) (Tick.tSpawnReset e)
                      (Tick.randX e) (Tick.randY e)
                      (snd ph, World.nextCoinId w, World.lastSpawn w) in
  tick JSON_parse JSON_stringify e w =
    World.mk (World.nextPlayerId w) (fst ph) (fst (fst sp)) (snd (fst sp))
      (snd drained) (snd sp)
      (broadcastState JSON_stringify (Tick.tBroadcast e) (fst ph) (fst (fst sp))
                      (Tick.clients e) (World.timers w)).
Proof.
  cbv zeta. unfold tick.
  destruct (processInboundQueue _ _ _ _ _) as [ps1 q1]. cbn [fst snd].
  destruct (physics _ _) as [ps2 cs2]. cbn [fst snd].
  destruct (spawnStep _ _ _ _ _) as [[cs3 next3] last3].
  reflexivity.
Qed.

End InvariantFacts.

Lemma spawnStep_keeps_coins_wellFormed (tCheck tReset : Z) (rx ry : R)
    (cs : Obj.t Coin.t) (next last : Z) :
  ascending (Obj.keys cs) ->
  idsBelow next (Obj.keys cs) ->
  map Coin.id (Obj.values cs) = Obj.keys cs ->
  (List.length cs <= MAX_COINS)%nat ->
  let sp := spawnStep tCheck tReset rx ry (cs, next, last) in
  ascending (Obj.keys (fst (fst sp))) /\
  idsBelow (snd (fst sp)) (Obj.keys (fst (fst sp))) /\
  map Coin.id (Obj.values (fst (fst sp))) = Obj.keys (fst (fst sp)) /\
  (List.length (fst (fst sp)) <= MAX_COINS)%nat.
Proof.
  intros Hasc Hbelow Hown Hcap sp. unfold sp, spawnStep.
  destruct (COIN_SPAWN_INTERVAL <? tCheck - last)%Z;
    [ | cbn [fst snd]; repeat split; assumption ].
  destruct (List.length (Obj.keys cs) <? MAX_COINS)%nat eqn:Hroom;
    [ | cbn [fst snd]; repeat split; assumption ].
  apply Nat.ltb_lt in Hroom. unfold Obj.keys in Hroom. rewrite length_map in Hroom.
  unfold spawnCoin. rewrite (set_fresh _ _ cs Hbelow). cbn [fst snd].
  unfold Obj.keys, Obj.values in *. rewrite !map_app. cbn [map fst snd Coin.id].
  repeat split.
  - apply ascending_snoc; assumption.
  - unfold idsBelow in *. apply Forall_app. split.
    + eapply Forall_impl; [ | exact Hbelow ]. cbn. intros k Hk. lia.
    + constructor; [ lia | constructor ].
  - rewrite Hown. reflexivity.
  - rewrite length_app. cbn [List.length]. lia.
Qed.

Lemma Forall2_le_nonneg (l l' : list Z) :
  Forall2 Z.le l l' -> Forall (fun s => (0 <= s)%Z) l ->
  Forall (fun s => (0 <= s)%Z) l'.
Proof.
  induction 1 as [| a b l l' Hab _ IH]; intros Hall; [ constructor | ].
  inversion Hall as [| ? ? Ha Hrest]; subst.
  constructor; [ lia | apply IH; exact Hrest ].
Qed.

Lemma spawnStep_counter_and_count (tCheck tReset : Z) (rx ry : R)
    (cs : Obj.t Coin.t) (next last : Z) :
  let sp := spawnStep tCheck tReset rx ry (cs, next, last) in
  (next <= snd (fst sp))%Z /\
  (List.length (fst (fst sp)) <= S (List.length cs))%nat.
Proof.
  cbv zeta. unfold spawnStep.
  destruct (COIN_SPAWN_INTERVAL <? tCheck - last)%Z; [ | cbn [fst snd]; lia ].
  destruct (List.length (Obj.keys cs) <? MAX_COINS)%nat; [ | cbn [fst snd]; lia ].
  cbn [spawnCoin fst snd].
  pose proof (length_set next
                (Coin.mk next (rx * (MAP_W - 40) + 20) (ry * (MAP_H - 40) + 20))
                cs) as Hlen.
  lia.
Qed.

Lemma in_set {V : Type} (k : Z) (v : V) (o : list (Z * V)) :
  In (k, v) (Obj.set k v o).
Proof.
  induction o as [| [k0 v0] rest IH]; cbn [Obj.set].
  - left. reflexivity.
  - destruct (k =? k0)%Z; [ left; reflexivity | ].
    destruct (k <? k0)%Z; [ left; reflexivity | right; exact IH ].
Qed.

Section HandlerClaims.

Variable JSON_parse : string -> option JSValue.
Variable JSON_stringify : OutMsg -> string.

(** X12: a firing of the loop keeps the registries well formed: it neither
    adds nor removes a player nor reorders them, ids stay stored under their
    own key, no score decreases, coin ids stay below the coin counter, which
    never goes back, and the coins stay within the cap, growing by one at
    most. *)
Theorem X12_tick_keeps_the_registries_well_formed (e : Tick.env) (w : World.t) :
  wellFormed w ->
  let w' := tick JSON_parse JSON_stringify e w in
  wellFormed w' /\
  Obj.keys (World.players w') = Obj.keys (World.players w) /\
  map Player.id (Obj.values (World.players w'))
    = map Player.id (Obj.values (World.players w)) /\
  Forall2 Z.le (map Player.score (Obj.values (World.players w)))
               (map Player.score (Obj.values (World.players w'))) /\
  World.nextPlayerId w' = World.nextPlayerId w /\
  (World.nextCoinId w <= World.nextCoinId w')%Z /\
  (List.length (World.coins w') <= S (List.length (World.coins w)))%nat.
Proof.
  intros [Hpos [Hasc [Hkpos [Hbelow [Hown [Hscore [Casc [Cbelow [Cown Ccap]]]]]]]]] w'.
  unfold w'. rewrite tick_fields. cbv zeta.
  cbn [World.players World.coins World.nextPlayerId World.nextCoinId].
  rewrite processInboundQueue_spec. cbn [fst snd].
  set (ps1 := applyReady JSON_parse (Tick.tDrain e) (Tick.tHandle e) 0
                         (World.inboundQueue w) (World.players w)).
  destruct (applyReady_shape JSON_parse (Tick.tDrain e) (Tick.tHandle e)
              (World.inboundQueue w) 0 (World.players w) Hasc) as [Dk Db].
  fold ps1 in Dk, Db.
  assert (Did : map Player.id (Obj.values ps1)
                = map Player.id (Obj.values (World.players w))).
  { apply (f_equal (map (fun b : Z * R * R * Z * option R =>
                           fst (fst (fst (fst b)))))) in Db.
    rewrite !map_map in Db. exact Db. }
  assert (Dsc : map Player.score (Obj.values ps1)
                = map Player.score (Obj.values (World.players w))).
  { apply (f_equal (map (fun b : Z * R * R * Z * option R => snd (fst b)))) in Db.
    rewrite !map_map in Db. exact Db. }
  destruct (physics_shape ps1 (World.coins w)) as [Pk [Pid Psc]].
  rewrite Dsc in Psc.
  assert (Hcoins : snd (physics ps1 (World.coins w))
                   = filter (unclaimed (collidePlayers (movePlayers ps1)))
                            (World.coins w))
    by (unfold physics; apply coinPhase_coins).
  set (cs2 := snd (physics ps1 (World.coins w))) in *.
  assert (C2asc : ascending (Obj.keys cs2))
    by (rewrite Hcoins; apply ascending_filter; exact Casc).
  assert (C2below : idsBelow (World.nextCoinId w) (Obj.keys cs2))
    by (rewrite Hcoins; apply keys_filter_Forall; exact Cbelow).
  assert (C2own : map Coin.id (Obj.values cs2) = Obj.keys cs2)
    by (rewrite Hcoins; apply ownIds_filter; exact Cown).
  assert (C2len : (List.length cs2 <= List.length (World.coins w))%nat)
    by (rewrite Hcoins; apply filter_length_le).
  assert (C2cap : (List.length cs2 <= MAX_COINS)%nat) by lia.
  destruct (spawnStep_keeps_coins_wellFormed
              (Tick.tSpawnCheck e) (Tick.tSpawnReset e) (Tick.randX e) (Tick.randY e)
              cs2 (World.nextCoinId w) (World.lastSpawn w)
              C2asc C2below C2own C2cap) as [Sasc [Sbelow [Sown Scap]]].
  destruct (spawnStep_counter_and_count
              (Tick.tSpawnCheck e) (Tick.tSpawnReset e) (Tick.randX e) (Tick.randY e)
              cs2 (World.nextCoinId w) (World.lastSpawn w)) as [Snext Slen].
  split.
  - unfold wellFormed.
    cbn [World.players World.coins World.nextPlayerId World.nextCoinId].
    rewrite Pk, Pid, Dk, Did.
    repeat (split; [ assumption | ]).
    split.
    + apply (proj1 (Forall_map Player.score (fun s => (0 <= s)%Z) _)).
      apply (Forall2_le_nonneg _ _ Psc).
      apply (proj2 (Forall_map Player.score (fun s => (0 <= s)%Z) _)).
      exact Hscore.
    + repeat (split; [ assumption | ]). exact Scap.
  - rewrite Pk, Pid, Dk, Did.
    repeat (split; [ reflexivity | ]).
    split; [ exact Psc | ]. split; [ reflexivity | ].
    split; [ exact Snext | lia ].
Qed.

(** X13: the connection handler gives the new socket the id the counter
    stands at, which no registered player has; the new player is added last
    in enumeration order with score 0 and no input, at least 50 pixels
    inside the map, the players already there are not touched, the counter
    moves on by one, and the registries stay well formed. *)
Theorem X13_connection_registers_a_fresh_player
    (h : nat) (rx ry : R) (tWelcome tBroadcast : Z) (clients : list WS.t)
    (w : World.t) :
  wellFormed w ->
  0 <= rx < 1 -> 0 <= ry < 1 ->
  let id := World.nextPlayerId w in
  let pl := Player.mk id (rx * (MAP_W - 100) + 50) (ry * (MAP_H - 100) + 50)
                      0 Input.initial None in
  let r := onConnection JSON_stringify h rx ry tWelcome tBroadcast clients w in
  wellFormed (snd r) /\
  fst r = WS.mk h (Some id) /\
  ~ In id (Obj.keys (World.players w)) /\
  World.players (snd r) = World.players w ++ [(id, pl)] /\
  World.nextPlayerId (snd r) = (id + 1)%Z /\
  knownPlayer (World.players (snd r)) (fst r) = true /\
  50 <= Player.x pl < MAP_W - 50 /\
  50 <= Player.y pl < MAP_H - 50 /\
  World.coins (snd r) = World.coins w /\
  World.inboundQueue (snd r) = World.inboundQueue w.
Proof.
  intros [Hpos [Hasc [Hkpos [Hbelow [Hown [Hscore Hcoins]]]]]] Hrx Hry id pl r.
  unfold r, onConnection. fold id pl.
  cbn [fst snd World.players World.coins World.nextPlayerId World.inboundQueue].
  rewrite (set_fresh id pl (World.players w) Hbelow).
  split.
  - unfold wellFormed.
    cbn [World.players World.coins World.nextPlayerId World.nextCoinId].
    unfold Obj.keys, Obj.values in *. rewrite !map_app. cbn [map fst snd].
    split; [ unfold id; lia | ].
    split; [ apply ascending_snoc; assumption | ].
    split; [ apply Forall_app; split;
             [ exact Hkpos | constructor; [ exact Hpos | constructor ] ] | ].
    split.
    { unfold idsBelow in *. apply Forall_app. split.
      - eapply Forall_impl; [ | exact Hbelow ]. cbn. intros k Hk. lia.
      - constructor; [ lia | constructor ]. }
    split; [ rewrite Hown; reflexivity | ].
    split; [ apply Forall_app; split;
             [ exact Hscore | constructor; [ cbn; lia | constructor ] ] | ].
    exact Hcoins.
  - split; [ reflexivity | ].
    split; [ apply ascending_not_in; exact Hbelow | ].
    split; [ reflexivity | ]. split; [ reflexivity | ].
    split.
    + unfold knownPlayer. cbn [WS.playerId].
      rewrite <- (set_fresh id pl (World.players w) Hbelow).
      rewrite get_set, Z.eqb_refl.
      replace (id =? 0)%Z with false by (symmetry; apply Z.eqb_neq; unfold id; lia).
      reflexivity.
    + unfold pl, MAP_W, MAP_H. cbn [Player.x Player.y].
      repeat split; nra.
Qed.

(** X14: the close handler removes the socket's player and nothing else:
    the other players are found as before, the player counter does not move
    (so the id is not handed out again), the registries stay well formed, and
    whatever the socket still has in the queue is thrown away when the drain
    reaches it. *)
Theorem X14_close_forgets_the_player_only
    (now : Z) (ws : WS.t) (clients : list WS.t) (w : World.t) :
  wellFormed w ->
  let w' := onClose JSON_stringify now ws clients w in
  wellFormed w' /\
  knownPlayer (World.players w') ws = false /\
  (forall k, WS.playerId ws <> Some k ->
             Obj.get k (World.players w') = Obj.get k (World.players w)) /\
  World.nextPlayerId w' = World.nextPlayerId w /\
  World.coins w' = World.coins w /\
  (forall t tq raw,
      processEnvelope JSON_parse t (Envelope.mk tq ws raw) (World.players w')
        = World.players w').
Proof.
  intros [Hpos [Hasc [Hkpos [Hbelow [Hown [Hscore Hcoins]]]]]] w'.
  assert (Hknown : knownPlayer (World.players w') ws = false)
    by apply onClose_forgets_player.
  split.
  - unfold w', onClose, wellFormed.
    cbn [World.players World.coins World.nextPlayerId World.nextCoinId].
    destruct (WS.playerId ws) as [pid |].
    + unfold Obj.delete.
      split; [ exact Hpos | ].
      split; [ apply ascending_filter; exact Hasc | ].
      split; [ apply keys_filter_Forall; exact Hkpos | ].
      split; [ apply keys_filter_Forall; exact Hbelow | ].
      split; [ apply ownIds_filter; exact Hown | ].
      split; [ | exact Hcoins ].
      unfold Obj.values in *. rewrite Forall_map in *. rewrite Forall_forall in *.
      intros kv Hin. apply Hscore. apply filter_In in Hin. apply Hin.
    + repeat (split; [ assumption | ]). exact Hcoins.
  - split; [ exact Hknown | ]. split.
    + intros k Hne. unfold w', onClose. cbn [World.players].
      destruct (WS.playerId ws) as [pid |]; [ | reflexivity ].
      apply get_delete_other. intros ->. apply Hne. reflexivity.
    + split; [ reflexivity | ]. split; [ reflexivity | ].
      intros t tq raw. apply processEnvelope_discarded. right. exact Hknown.
Qed.

(** X15: the snapshot a firing broadcasts is taken after all the mutations
    of that firing: every connected socket gets one timer, armed behind the
    pending ones, whose text describes exactly the registries the firing
    leaves behind; and the queue it leaves behind holds exactly the envelopes
    that were not ready. *)
Theorem X15_tick_broadcasts_the_state_it_leaves (e : Tick.env) (w : World.t) :
  let w' := tick JSON_parse JSON_stringify e w in
  World.timers w' =
    World.timers w
    ++ map (fun ws =>
              Timer.mk (Tick.tBroadcast e + SIM_LATENCY_MS)%Z ws
                (JSON_stringify
                   (SnapshotMsg (snapshotOf (Tick.tBroadcast e)
                                            (World.players w') (World.coins w')))))
           (Tick.clients e) /\
  World.inboundQueue w' =
    filter (fun env => negb (Envelope.processAt env <=? Tick.tDrain e)%Z)
           (World.inboundQueue w).
Proof.
  cbv zeta. rewrite tick_fields. cbv zeta.
  cbn [World.timers World.players World.coins World.inboundQueue].
  split; [ apply broadcastState_timers | ].
  rewrite processInboundQueue_spec. reflexivity.
Qed.

(** X16: on a connection the welcome for the new socket is armed first,
    then one snapshot per connected socket; that snapshot already lists the
    new player, at its spawn position and with score 0. *)
Theorem X16_connection_arms_welcome_then_snapshot
    (h : nat) (rx ry : R) (tWelcome tBroadcast : Z) (clients : list WS.t)
    (w : World.t) :
  let id := World.nextPlayerId w in
  let r := onConnection JSON_stringify h rx ry tWelcome tBroadcast clients w in
  let snap := snapshotOf tBroadcast (World.players (snd r)) (World.coins w) in
  World.timers (snd r) =
    World.timers w
    ++ Timer.mk (tWelcome + SIM_LATENCY_MS)%Z (fst r)
         (JSON_stringify (WelcomeMsg (Welcome.mk id MAP_W MAP_H tWelcome)))
    :: map (fun ws =>
              Timer.mk (tBroadcast + SIM_LATENCY_MS)%Z ws
                       (JSON_stringify (SnapshotMsg snap)))
           clients /\
  In (PlayerView.mk id (rx * (MAP_W - 100) + 50) (ry * (MAP_H - 100) + 50) 0)
     (Snapshot.players snap).
Proof.
  cbv zeta. unfold onConnection.
  cbn [fst snd World.timers World.players].
  split.
  - rewrite broadcastState_timers. unfold sendWithLatency.
    rewrite <- app_assoc. reflexivity.
  - unfold snapshotOf. cbn [Snapshot.players]. unfold Obj.values.
    rewrite map_map. apply in_map_iff.
    eexists (World.nextPlayerId w, _). split; [ | apply in_set ].
    reflexivity.
Qed.

End HandlerClaims.

Lemma oneCoinWorld_wellFormed : wellFormed oneCoinWorld.
Proof.
  unfold wellFormed, oneCoinWorld, idsBelow, coinAt, MAX_COINS.
  cbn [World.players World.coins World.nextPlayerId World.nextCoinId
       Obj.keys Obj.values map fst snd ascending List.length
       bumped Player.id Player.score Coin.id].
  repeat match goal with
         | |- _ /\ _ => split
         | |- Forall _ [] => constructor
         | |- Forall _ (_ :: _) => constructor
         | |- True => exact I
         | |- _ = _ => reflexivity
         | |- _ => cbn [bumped Player.score]; lia
         end.
Qed.

Lemma X12_tick_keeps_the_registries_well_formed_witness :
  wellFormed oneCoinWorld /\
  wellFormed (tick noParse noText quietEnv oneCoinWorld).
Proof.
  split; [ exact oneCoinWorld_wellFormed | ].
  exact (proj1 (X12_tick_keeps_the_registries_well_formed
                  noParse noText quietEnv oneCoinWorld oneCoinWorld_wellFormed)).
Defined.

Lemma X13_connection_registers_a_fresh_player_witness :
  wellFormed oneCoinWorld /\
  World.nextPlayerId
    (snd (onConnection noText 9 (1 / 2) (1 / 2) 1000 1000 [] oneCoinWorld)) = 3%Z.
Proof.
  split; [ exact oneCoinWorld_wellFormed | ].
  refine (proj1 (proj2 (proj2 (proj2 (proj2
            (X13_connection_registers_a_fresh_player
               noText 9 (1 / 2) (1 / 2) 1000 1000 [] oneCoinWorld
               oneCoinWorld_wellFormed _ _)))))); lra.
Defined.

Lemma X14_close_forgets_the_player_only_witness :
  wellFormed oneCoinWorld /\
  knownPlayer (World.players (onClose noText 1000 socket1 [] oneCoinWorld)) socket1
    = false.
Proof.
  split; [ exact oneCoinWorld_wellFormed | ].
  exact (proj1 (proj2 (X14_close_forgets_the_player_only
                         noParse noText 1000 socket1 [] oneCoinWorld
                         oneCoinWorld_wellFormed))).
Defined.

(** ** Scores and coins across the physics *)

Lemma totalScore_values (ps : Obj.t Player.t) :
  totalScore ps = fold_right Z.add 0%Z (map Player.score (Obj.values ps)).
Proof.
  unfold totalScore, Obj.values.
  induction ps as [| [k p] rest IH]; cbn [fold_right map snd]; [ reflexivity | ].
  rewrite IH. reflexivity.
Qed.

(** X17: points are made of coins: over the whole physics of a firing
    (movement, player-player pass, coin scan) the scores grow in total by
    exactly the number of coins that leave the registry, no coin is added,
    and the coins that stay keep their order. *)
Theorem X17_physics_trades_coins_for_points
    (ps : Obj.t Player.t) (cs : Obj.t Coin.t) :
  (totalScore (fst (physics ps cs))
   = totalScore ps
     + (Z.of_nat (List.length cs)
        - Z.of_nat (List.length (snd (physics ps cs)))))%Z /\
  (List.length (snd (physics ps cs)) <= List.length cs)%nat /\
  snd (physics ps cs)
    = filter (unclaimed (collidePlayers (movePlayers ps))) cs.
Proof.
  unfold physics.
  split; [ | split; [ apply coinPhase_coins_length | apply coinPhase_coins ] ].
  rewrite coinPhase_total. f_equal.
  rewrite !totalScore_values.
  destruct (movePlayers_shape ps) as [_ Mc].
  pose proof (collidePlayerArr_core (Obj.values (movePlayers ps))) as Cc.
  rewrite <- values_collidePlayers, Mc in Cc.
  apply (f_equal (map (fun c : Z * Z * Input.t => snd (fst c)))) in Cc.
  rewrite !map_map in Cc.
  assert (E : map Player.score (Obj.values (collidePlayers (movePlayers ps)))
              = map Player.score (Obj.values ps)) by exact Cc.
  rewrite E. reflexivity.
Qed.

(** ** Client messages, continued *)

Lemma handleMsg_input (now pid : Z) (ws : WS.t) (fs : list (string * JSValue))
    (player : Player.t) (players : Obj.t Player.t) :
  WS.playerId ws = Some pid -> pid <> 0%Z ->
  Obj.get pid players = Some player ->
  isInputTag (lookupField "type" fs) = true ->
  handleMsg now ws (JObj fs) players =
    Returned (Obj.set pid (Player.setInput player (inputOf now fs)) players).
Proof.
  intros Hws Hpid Hget Hty. unfold handleMsg. rewrite Hws.
  replace (pid =? 0)%Z with false by (symmetry; apply Z.eqb_neq; exact Hpid).
  rewrite Hget. unfold readProp. cbn [getProp bind]. rewrite Hty.
  reflexivity.
Qed.

Lemma handleMsg_not_input (now : Z) (ws : WS.t) (msg : JSValue)
    (players : Obj.t Player.t) :
  isInputMessage msg = false ->
  handleMsg now ws msg players = Returned players \/
  handleMsg now ws msg players = Thrown.
Proof.
  intros Hno. unfold handleMsg.
  destruct (WS.playerId ws) as [pid |]; [ | left; reflexivity ].
  destruct (pid =? 0)%Z; [ left; reflexivity | ].
  destruct (Obj.get pid players) as [player |]; [ | left; reflexivity ].
  unfold readProp.
  destruct msg as [| | b | n | s | items | fs]; cbn [getProp bind isInputTag];
    try (left; reflexivity); try (right; reflexivity).
  cbn [isInputMessage] in Hno. rewrite Hno. left. reflexivity.
Qed.

Lemma set_set {V : Type} (k : Z) (v v' : V) (o : list (Z * V)) :
  Obj.set k v' (Obj.set k v o) = Obj.set k v' o.
Proof.
  induction o as [| [k0 v0] rest IH]; cbn [Obj.set].
  - rewrite Z.eqb_refl. reflexivity.
  - destruct (k =? k0)%Z eqn:E1.
    + cbn [Obj.set]. rewrite Z.eqb_refl. reflexivity.
    + destruct (k <? k0)%Z eqn:E2; cbn [Obj.set].
      * rewrite Z.eqb_refl. reflexivity.
      * rewrite E1, E2, IH. reflexivity.
Qed.

Section MessageClaims.

Variable JSON_parse : string -> option JSValue.

(** X18: only a payload that parses to an object whose [type] is the string
    ["input"] can change anything: a payload that does not parse, or parses
    to [null], a number, a string, a boolean, an array or an object with
    another [type], leaves the whole registry as it was, whoever sent it. *)
Theorem X18_other_payloads_are_ignored
    (t : Z) (e : Envelope.t) (players : Obj.t Player.t) :
  match JSON_parse (Envelope.raw e) with
  | Some msg => isInputMessage msg = false
  | None => True
  end ->
  processEnvelope JSON_parse t e players = players.
Proof.
  unfold processEnvelope.
  destruct (JSON_parse (Envelope.raw e)) as [msg |]; cbn [bind];
    [ | reflexivity ].
  intros Hno.
  destruct (handleMsg_not_input t (Envelope.ws e) msg players Hno) as [-> | ->];
    reflexivity.
Qed.

(** X19: the stored input is overwritten, never merged: after an [input]
    message of a known player has been handled, the registry holds under that
    player's id a player whose stored input is exactly the intent built from
    that message, the rest of the player being as before; and the registry is
    the same whether or not an earlier envelope of the same socket had been
    handled first. *)
Theorem X19_latest_input_wins
    (t1 t2 pid : Z) (e1 : Envelope.t) (ws : WS.t)
    (fs : list (string * JSValue)) (player : Player.t)
    (players : Obj.t Player.t) :
  Envelope.ws e1 = ws ->
  WS.playerId ws = Some pid -> pid <> 0%Z ->
  Obj.get pid players = Some player ->
  isInputTag (lookupField "type" fs) = true ->
  exists players2 q,
    handleMsg t2 ws (JObj fs) (processEnvelope JSON_parse t1 e1 players)
      = Returned players2 /\
    handleMsg t2 ws (JObj fs) players = Returned players2 /\
    Obj.get pid players2 = Some q /\
    Player.input q =
      Input.mk (JBool (truthy (lookupField "up" fs)))
               (JBool (truthy (lookupField "down" fs)))
               (JBool (truthy (lookupField "left" fs)))
               (JBool (truthy (lookupField "right" fs)))
               (if truthy (lookupField "stamp" fs) then lookupField "stamp" fs
                else JNum (inject_Z t2)) /\
    Player.input q = inputOf t2 fs /\
    body q = body player.
Proof.
  intros Hsock Hws Hpid Hget Hty.
  pose proof (handleMsg_input t2 pid ws fs player players Hws Hpid Hget Hty) as Hnow.
  exists (Obj.set pid (Player.setInput player (inputOf t2 fs)) players),
         (Player.setInput player (inputOf t2 fs)).
  split; [ | split; [ exact Hnow | ] ].
  - destruct (processEnvelope_result JSON_parse t1 e1 players)
      as [-> | [pid1 [player1 [inp1 [Hws1 [Hget1 ->]]]]]].
    + exact Hnow.
    + rewrite Hsock, Hws in Hws1. injection Hws1 as <-.
      rewrite Hget in Hget1. injection Hget1 as <-.
      rewrite (handleMsg_input t2 pid ws fs (Player.setInput player inp1))
        by (try assumption; rewrite get_set, Z.eqb_refl; reflexivity).
      rewrite set_set. reflexivity.
  - split; [ rewrite get_set, Z.eqb_refl; reflexivity | ].
    cbn [Player.setInput Player.input]. unfold inputOf, jsOr.
    split; [ reflexivity | ]. split; reflexivity.
Qed.

End MessageClaims.

Lemma X18_other_payloads_are_ignored_witness :
  isInputMessage chatMsg = false /\
  processEnvelope (fun _ => Some chatMsg) 1000 garbled [(1%Z, bumped)]
    = [(1%Z, bumped)].
Proof.
  split; [ reflexivity | ].
  exact (X18_other_payloads_are_ignored (fun _ => Some chatMsg) 1000 garbled
           [(1%Z, bumped)] eq_refl).
Defined.

Lemma X19_latest_input_wins_witness :
  Obj.get 1 [(1%Z, bumped)] = Some bumped /\
  exists players2 q,
    handleMsg 2000 socket1 (JObj pressRightMsg)
        (processEnvelope (fun _ => Some (JObj inputMsg)) 1000 garbled
                         [(1%Z, bumped)])
      = Returned players2 /\
    Obj.get 1 players2 = Some q /\
    Player.input q =
      Input.mk (JBool false) (JBool false) (JBool false) (JBool true)
               (JNum (inject_Z 2000)).
Proof.
  split; [ reflexivity | ].
  destruct (X19_latest_input_wins (fun _ => Some (JObj inputMsg))
              1000 2000 1 garbled socket1 pressRightMsg bumped
              [(1%Z, bumped)] eq_refl eq_refl ltac:(discriminate) eq_refl eq_refl)
    as [players2 [q [Hrun [_ [Hq [Hin _]]]]]].
  exists players2, q.
  split; [ exact Hrun | ]. split; [ exact Hq | ].
  rewrite Hin. reflexivity.
Defined.
